(** * typescript-eslint rules: [no-useless-template-literals] and
      [explicit-function-return-type]

    A shallow embedding of the two rule visitors of
    [packages/eslint-plugin/src/rules] and the properties of their reports.

    Conventions.  JavaScript strings are [string]s (one character per code
    unit), source offsets are [Z], arrays are lists read with [!!].  A call
    that throws is a [Throw] of the [result] type (enforcer) or [None]
    (a fix callback that dereferences [undefined]). *)

From Stdlib Require Import ZArith Lia Ascii String Sorted.
From stdpp Require Import base option list strings.

Set Warnings "-register-all".
Local Open Scope Z_scope.

(* ===================================================================== *)
(** ** JavaScript string primitives used by the rules *)
(* ===================================================================== *)

Module JS.

Definition chars (s : string) : list ascii := list_ascii_of_string s.
Definition str (l : list ascii) : string := string_of_list_ascii l.

Definition backtick : ascii := "`"%char.
Definition dollar : ascii := "$"%char.
Definition backslash : ascii := "\"%char.
Definition lbrace : ascii := "{"%char.

(** [s.length] *)
Definition length (s : string) : Z := Z.of_nat (List.length (chars s)).

(** Relative index of [String.prototype.slice]: negative counts from the
    end, the result is clamped to [0 .. len]. *)
Definition relIndex (len i : Z) : Z :=
  if i <? 0 then Z.max (len + i) 0 else Z.min i len.

(** [l.slice(start, end)] on the code units. *)
Definition sliceChars (l : list ascii) (start stop : Z) : list ascii :=
  let len := Z.of_nat (List.length l) in
  let from := relIndex len start in
  let to := relIndex len stop in
  take (Z.to_nat (to - from)) (drop (Z.to_nat from) l).

(** [s.slice(start, end)] *)
Definition slice (s : string) (start stop : Z) : string :=
  str (sliceChars (chars s) start stop).

(** [s.slice(start)] *)
Definition sliceFrom (s : string) (start : Z) : string :=
  slice s start (length s).

Definition inClass (cls : list ascii) (c : ascii) : bool :=
  bool_decide (c ∈ cls).

(** [l.replace(/([cls])/g, '\\$1')]: every code unit of the class is
    replaced by a backslash followed by itself; the regular expression is
    a single character class, so matches are the single code units of the
    class, left to right, and never overlap. *)
Fixpoint replaceClassChars (cls : list ascii) (l : list ascii) : list ascii :=
  match l with
  | [] => []
  | c :: l' =>
      if inClass cls c
      then backslash :: c :: replaceClassChars cls l'
      else c :: replaceClassChars cls l'
  end.

Definition replaceClass (cls : list ascii) (s : string) : string :=
  str (replaceClassChars cls (chars s)).

(** Truthiness of a possibly-undefined string: [undefined] and [''] are
    falsy. *)
Definition truthy (o : option string) : bool :=
  match o with
  | Some s => negb (String.eqb s "")
  | None => false
  end.

(** [a.indexOf(x)] with a given strict-equality test: the first index
    whose element equals [x], or [-1]. *)
Fixpoint indexOfFrom {A} (eqb : A → A → bool) (l : list A) (x : A) (i : Z) : Z :=
  match l with
  | [] => -1
  | y :: l' => if eqb y x then i else indexOfFrom eqb l' x (i + 1)
  end.

Definition indexOf {A} (eqb : A → A → bool) (l : list A) (x : A) : Z :=
  indexOfFrom eqb l x 0.

(** [a[i]] for a number [i]: [undefined] outside [0 .. length-1]. *)
Definition at_ {A} (l : list A) (i : Z) : option A :=
  if i <? 0 then None else l !! Z.to_nat i.

End JS.

(* ===================================================================== *)
(** ** The type service: [ts.Type], [ts.TypeFlags], [isTypeFlagSet] *)
(* ===================================================================== *)

Module TS.

(** [ts.TypeFlags] members the rule and its examples mention. *)
Module TypeFlags.
Definition Any : Z := 1.
Definition String : Z := 4.
Definition Number : Z := 8.
Definition StringLiteral : Z := 128.
Definition NumberLiteral : Z := 256.
Definition Object : Z := 524288.
Definition Union : Z := 1048576.
Definition Intersection : Z := 2097152.
Definition TemplateLiteral : Z := 134217728.
Definition StringMapping : Z := 268435456.
Definition StringLike : Z :=
  Z.lor String (Z.lor StringLiteral (Z.lor TemplateLiteral StringMapping)).
End TypeFlags.

(** A [ts.Type] as the rule observes it: [isUnion()] and
    [isIntersection()] discriminate, [types] are the constituents and
    [flags] is the type's own [TypeFlags] bit set. *)
Inductive Type_ : Type :=
| UnionType (flags : Z) (types : list Type_)
| IntersectionType (flags : Z) (types : list Type_)
| PlainType (flags : Z).

Definition flags (t : Type_) : Z :=
  match t with
  | UnionType f _ | IntersectionType f _ | PlainType f => f
  end.

(** Modelled from the spec: [isTypeFlagSet] of [../util] is not among the
    sources; the spec gives it as [isTypeFlagSet(type, flag) -> bool], the
    test of type-flag membership. *)
Definition isTypeFlagSet (t : Type_) (flagsToCheck : Z) : bool :=
  negb (Z.land (flags t) flagsToCheck =? 0).

(** The type has one of the [StringLike] flags. *)
Definition hasStringLike (t : Type_) : Prop :=
  Z.land (flags t) TypeFlags.StringLike ≠ 0.

Definition string_ : Type_ := PlainType TypeFlags.String.
Definition number_ : Type_ := PlainType TypeFlags.Number.
(** An object type used as a brand, as in [string & { __brand: 'x' }]. *)
Definition Branded : Type_ := PlainType TypeFlags.Object.

End TS.

(* ===================================================================== *)
(** ** The syntax tree (TSESTree) as the rules read it *)
(* ===================================================================== *)

Module AST_NODE_TYPES.
(** The node kinds the two rules test for, and a few of the others. *)
Inductive t : Set :=
| ArrowFunctionExpression | BinaryExpression | CallExpression
| ExpressionStatement | FunctionDeclaration | FunctionExpression
| Identifier | Literal | MemberExpression | MethodDefinition
| Program | Property | PropertyDefinition | ReturnStatement
| TaggedTemplateExpression | TemplateLiteral | TSAsExpression
| UnaryExpression | VariableDeclarator.

Definition eqb (a b : t) : bool :=
  match a, b with
  | ArrowFunctionExpression, ArrowFunctionExpression
  | BinaryExpression, BinaryExpression
  | CallExpression, CallExpression
  | ExpressionStatement, ExpressionStatement
  | FunctionDeclaration, FunctionDeclaration
  | FunctionExpression, FunctionExpression
  | Identifier, Identifier
  | Literal, Literal
  | MemberExpression, MemberExpression
  | MethodDefinition, MethodDefinition
  | Program, Program
  | Property, Property
  | PropertyDefinition, PropertyDefinition
  | ReturnStatement, ReturnStatement
  | TaggedTemplateExpression, TaggedTemplateExpression
  | TemplateLiteral, TemplateLiteral
  | TSAsExpression, TSAsExpression
  | UnaryExpression, UnaryExpression
  | VariableDeclarator, VariableDeclarator => true
  | _, _ => false
  end.
End AST_NODE_TYPES.

Module ESTree.

(** [node.range]: [[start, end]] offsets into the source text. *)
Definition Range : Type := Z * Z.

Definition range_eqb (a b : Range) : bool :=
  (a.1 =? b.1) && (a.2 =? b.2).

(** [Literal.value]: a string, or one of the non-string literal values.
    A number is carried by its [String(...)] rendering. *)
Inductive LiteralValue : Type :=
| StringValue (s : string)
| NumberValue (rendering : string)
| BooleanValue (b : bool)
| NullValue
| BigIntValue (rendering : string)
| RegExpValue (pattern flags : string).

Definition LiteralValue_eqb (a b : LiteralValue) : bool :=
  match a, b with
  | StringValue x, StringValue y => String.eqb x y
  | NumberValue x, NumberValue y => String.eqb x y
  | BooleanValue x, BooleanValue y => Bool.eqb x y
  | NullValue, NullValue => true
  | BigIntValue x, BigIntValue y => String.eqb x y
  | RegExpValue p f, RegExpValue p' f' => String.eqb p p' && String.eqb f f'
  | _, _ => false
  end.

(** [TemplateElement]: [range] and [value.raw]. *)
Record TemplateElement : Type := {
  quasi_range : Range;
  quasi_raw : string;
}.

Definition TemplateElement_eqb (a b : TemplateElement) : bool :=
  range_eqb (quasi_range a) (quasi_range b)
  && String.eqb (quasi_raw a) (quasi_raw b).

(** Expression kinds the template rule does not look into. *)
Inductive OtherKind : Set :=
| KArrowFunctionExpression | KBinaryExpression | KCallExpression
| KFunctionExpression | KMemberExpression | KTSAsExpression
| KUnaryExpression.

Definition OtherKind_type (k : OtherKind) : AST_NODE_TYPES.t :=
  match k with
  | KArrowFunctionExpression => AST_NODE_TYPES.ArrowFunctionExpression
  | KBinaryExpression => AST_NODE_TYPES.BinaryExpression
  | KCallExpression => AST_NODE_TYPES.CallExpression
  | KFunctionExpression => AST_NODE_TYPES.FunctionExpression
  | KMemberExpression => AST_NODE_TYPES.MemberExpression
  | KTSAsExpression => AST_NODE_TYPES.TSAsExpression
  | KUnaryExpression => AST_NODE_TYPES.UnaryExpression
  end.

Definition OtherKind_eqb (a b : OtherKind) : bool :=
  AST_NODE_TYPES.eqb (OtherKind_type a) (OtherKind_type b).

(** [TSESTree.Expression] *)
Inductive Expression : Type :=
| Literal (range : Range) (raw : string) (value : LiteralValue)
| TemplateLiteral (range : Range) (quasis : list TemplateElement)
    (expressions : list Expression)
| Identifier (range : Range) (name : string)
| Other (kind : OtherKind) (range : Range).

Definition type (e : Expression) : AST_NODE_TYPES.t :=
  match e with
  | Literal _ _ _ => AST_NODE_TYPES.Literal
  | TemplateLiteral _ _ _ => AST_NODE_TYPES.TemplateLiteral
  | Identifier _ _ => AST_NODE_TYPES.Identifier
  | Other k _ => OtherKind_type k
  end.

Definition range (e : Expression) : Range :=
  match e with
  | Literal r _ _ | TemplateLiteral r _ _ | Identifier r _ | Other _ r => r
  end.

Fixpoint list_eqb {A} (eqb : A → A → bool) (l l' : list A) : bool :=
  match l, l' with
  | [], [] => true
  | x :: l, y :: l' => eqb x y && list_eqb eqb l l'
  | _, _ => false
  end.

(** [a === b] on nodes.  JavaScript compares object identity; sibling
    nodes of one tree are distinct objects with distinct ranges, so the
    model compares the nodes field by field, range included. *)
Fixpoint Expression_eqb (a b : Expression) : bool :=
  match a, b with
  | Literal r raw v, Literal r' raw' v' =>
      range_eqb r r' && String.eqb raw raw' && LiteralValue_eqb v v'
  | TemplateLiteral r qs es, TemplateLiteral r' qs' es' =>
      range_eqb r r' && list_eqb TemplateElement_eqb qs qs'
      && (fix go (l l' : list Expression) : bool :=
            match l, l' with
            | [], [] => true
            | x :: l, y :: l' => Expression_eqb x y && go l l'
            | _, _ => false
            end) es es'
  | Identifier r n, Identifier r' n' => range_eqb r r' && String.eqb n n'
  | Other k r, Other k' r' => OtherKind_eqb k k' && range_eqb r r'
  | _, _ => false
  end.

(** The [TemplateLiteral] node handed to the visitor, with the type of
    its parent ([node.parent.type]). *)
Record TemplateLiteralNode : Type := {
  parent_type : AST_NODE_TYPES.t;
  node_range : Range;
  quasis : list TemplateElement;
  expressions : list Expression;
}.

End ESTree.

(* ===================================================================== *)
(** ** The host's fixer and reports *)
(* ===================================================================== *)

Module Fixer.
Import ESTree.

(** The fixer and the application of edits belong to the host and are not
    among the sources.  Modelled from the spec: an edit is a half-open range
    of the original text with its replacement text; [removeRange(range)] and
    [replaceText(node, text)] build one; the edits of one report are applied
    together against the original text, and overlapping edits are
    rejected. *)

(** [TSESLint.RuleFix]: replace [range] of the source by [text]. *)
Record RuleFix : Type := {
  fix_range : Range;
  fix_text : string;
}.

(** [fixer.removeRange(range)] *)
Definition removeRange (r : Range) : RuleFix :=
  {| fix_range := r; fix_text := "" |}.

(** [fixer.replaceText(node, text)] *)
Definition replaceText (node : Expression) (text : string) : RuleFix :=
  {| fix_range := range node; fix_text := text |}.

(** Two half-open ranges do not overlap: one ends where, or before, the
    other starts (the host's test on the sorted edits of a report). *)
Definition disjoint (a b : Range) : Prop :=
  a.2 ≤ b.1 ∨ b.2 ≤ a.1.

(** Every two edits at different positions of the list are disjoint. *)
Fixpoint pairwiseDisjoint (l : list Range) : Prop :=
  match l with
  | [] => True
  | r :: l' => Forall (disjoint r) l' ∧ pairwiseDisjoint l'
  end.

(** *** Applying the edits of one report

    Modelled from the spec, in the way of the host's [mergeFixes]: the
    edits of a report are sorted by range and composed into one edit
    against the original text, an edit that starts before the one before it
    ends is rejected, and the composed edit is spliced into the text. *)

(** [compareFixesByRange(a, b) <= 0] *)
Definition fix_leb (a b : RuleFix) : bool :=
  ((fix_range a).1 <? (fix_range b).1)
  || (((fix_range a).1 =? (fix_range b).1)
      && ((fix_range a).2 <=? (fix_range b).2)).

Fixpoint insertFix (x : RuleFix) (l : list RuleFix) : list RuleFix :=
  match l with
  | [] => [x]
  | y :: l' => if fix_leb x y then x :: l else y :: insertFix x l'
  end.

(** [fixes.sort(compareFixesByRange)] (a stable sort). *)
Definition sortFixes (l : list RuleFix) : list RuleFix :=
  foldr insertFix [] l.

Definition MIN_SAFE_INTEGER : Z := - (2 ^ 53 - 1).

(** The loop of [mergeFixes]: [None] when the assertion "Fix objects must
    not be overlapped in a report" fails. *)
Fixpoint mergeLoop (originalText : string) (start : Z) (fixes : list RuleFix)
    (lastPos : Z) (text : string) : option (string * Z) :=
  match fixes with
  | [] => Some (text, lastPos)
  | f :: rest =>
      if (fix_range f).1 <? lastPos then None
      else
        let text :=
          if 0 <=? (fix_range f).1
          then (text ++ JS.slice originalText
                          (Z.max 0 (Z.max start lastPos)) (fix_range f).1)%string
          else text in
        mergeLoop originalText start rest (fix_range f).2
          (text ++ fix_text f)%string
  end.

Definition mergeFixes (originalText : string) (fixes : list RuleFix)
    : option RuleFix :=
  match sortFixes fixes with
  | [] => None
  | [f] => Some f
  | (first :: _) as sorted =>
      let start := (fix_range first).1 in
      last_ ← last sorted;
      let stop := (fix_range last_).2 in
      '(text, lastPos) ← mergeLoop originalText start sorted MIN_SAFE_INTEGER "";
      Some {| fix_range := (start, stop);
              fix_text := (text ++ JS.slice originalText
                                     (Z.max 0 (Z.max start lastPos)) stop)%string |}
  end.

(** Splicing one edit into the text:
    [text.slice(0, start) + fix.text + text.slice(end)]. *)
Definition applyFix (text : string) (f : RuleFix) : string :=
  (JS.slice text 0 (fix_range f).1 ++ fix_text f
     ++ JS.sliceFrom text (fix_range f).2)%string.

(** The source text after the edits of one report have been applied. *)
Definition applyFixes (text : string) (fixes : list RuleFix) : option string :=
  applyFix text <$> mergeFixes text fixes.

End Fixer.

(* ===================================================================== *)
(** ** [no-useless-template-literals] *)
(* ===================================================================== *)

Module NoUselessTemplateLiterals.
Import ESTree Fixer.

Inductive MessageId : Set := noUselessTemplateLiteral.

(** One [context.report({ node, messageId, fix })]; [fix_] is the value of
    the fix callback, [None] when the callback throws. *)
Record Report : Type := {
  report_node : Expression;
  messageId : MessageId;
  fix_ : option (list RuleFix);
}.

(** The parser services: the constrained type of each expression node. *)
Definition ParserServices : Type := Expression → TS.Type_.

(** Modelled from the spec: [getConstrainedTypeAtLocation] of [../util] is
    not among the sources; the spec gives it as
    [getConstrainedTypeAtLocation(services, node) -> Type]. *)
Definition getConstrainedTypeAtLocation (services : ParserServices)
    (node : Expression) : TS.Type_ :=
  services node.

(** Modelled from the spec: [isUndefinedIdentifier] of [../util] is not
    among the sources; the spec lists it with [isInfinityIdentifier] and
    [isNaNIdentifier] as the classifier of the identifier [undefined]. *)
Definition isUndefinedIdentifier (expression : Expression) : bool :=
  match expression with
  | Identifier _ name => String.eqb name "undefined"
  | _ => false
  end.

Definition isString (t : TS.Type_) : bool :=
  TS.isTypeFlagSet t TS.TypeFlags.StringLike.

Definition isUnderlyingTypeString (services : ParserServices)
    (expression : Expression) : bool :=
  let type := getConstrainedTypeAtLocation services expression in
  match type with
  | TS.UnionType _ types => forallb isString types
  | TS.IntersectionType _ types => existsb isString types
  | _ => isString type
  end.

Definition isLiteral (expression : Expression) : bool :=
  AST_NODE_TYPES.eqb (type expression) AST_NODE_TYPES.Literal.

Definition isTemplateLiteral (expression : Expression) : bool :=
  AST_NODE_TYPES.eqb (type expression) AST_NODE_TYPES.TemplateLiteral.

Definition isInfinityIdentifier (expression : Expression) : bool :=
  match expression with
  | Identifier _ name => String.eqb name "Infinity"
  | _ => false
  end.

Definition isNaNIdentifier (expression : Expression) : bool :=
  match expression with
  | Identifier _ name => String.eqb name "NaN"
  | _ => false
  end.

Definition hasSingleStringVariable (services : ParserServices)
    (node : TemplateLiteralNode) : bool :=
  bool_decide (length (quasis node) = 2%nat)
  && match quasis node !! 0%nat, quasis node !! 1%nat with
     | Some q0, Some q1 =>
         String.eqb (quasi_raw q0) ""
         && String.eqb (quasi_raw q1) ""
         && bool_decide (length (expressions node) = 1%nat)
         && match expressions node !! 0%nat with
            | Some e0 => isUnderlyingTypeString services e0
            | None => false
            end
     | _, _ => false
     end.

(** The fix callback of the single-interpolation report. *)
Definition fixSingle (node : TemplateLiteralNode) : option (list RuleFix) :=
  prevQuasi ← quasis node !! 0%nat;
  nextQuasi ← quasis node !! 1%nat;
  e0 ← expressions node !! 0%nat;
  Some [ removeRange ((quasi_range prevQuasi).2 - 3, (range e0).1);
         removeRange ((range e0).2, (quasi_range nextQuasi).1 + 2) ].

(** The predicate of [node.expressions.filter(...)]. *)
Definition isFixable (expression : Expression) : bool :=
  isLiteral expression
  || isTemplateLiteral expression
  || isUndefinedIdentifier expression
  || isInfinityIdentifier expression
  || isNaNIdentifier expression.

Definition fixableExpressions (node : TemplateLiteralNode) : list Expression :=
  List.filter isFixable (expressions node).

(** [String(expression.value)] for the literal values. *)
Definition String_ (v : LiteralValue) : string :=
  match v with
  | StringValue s => s
  | NumberValue rendering => rendering
  | BooleanValue b => if b then "true" else "false"
  | NullValue => "null"
  | BigIntValue rendering => rendering
  | RegExpValue pattern flags => "/" ++ pattern ++ "/" ++ flags
  end.

Definition escapedValue (raw : string) (value : LiteralValue) : string :=
  match value with
  | StringValue _ =>
      JS.replaceClass [JS.backtick; JS.dollar] (JS.slice raw 1 (-1))
  | _ =>
      JS.replaceClass [JS.backtick; JS.dollar; JS.backslash] (String_ value)
  end.

(** The fix callback of the report of one fixable expression. *)
Definition fixGeneral (node : TemplateLiteralNode) (expression : Expression)
    : option (list RuleFix) :=
  let index := JS.indexOf Expression_eqb (expressions node) expression in
  prevQuasi ← JS.at_ (quasis node) index;
  nextQuasi ← JS.at_ (quasis node) (index + 1);
  let fixes :=
    [ removeRange ((quasi_range prevQuasi).2 - 2, (range expression).1);
      removeRange ((range expression).2, (quasi_range nextQuasi).1 + 1) ] in
  Some
    match expression with
    | Literal _ raw value =>
        fixes ++ [ replaceText expression (escapedValue raw value) ]
    | TemplateLiteral r _ _ =>
        fixes ++ [ removeRange (r.1, r.1 + 1); removeRange (r.2 - 1, r.2) ]
    | _ => fixes
    end.

(** The [TemplateLiteral] visitor: the reports it sends, in order. *)
Definition TemplateLiteral_visitor (services : ParserServices)
    (node : TemplateLiteralNode) : list Report :=
  if AST_NODE_TYPES.eqb (parent_type node)
       AST_NODE_TYPES.TaggedTemplateExpression
  then []
  else if hasSingleStringVariable services node
  then
    match expressions node !! 0%nat with
    | Some e0 =>
        [ {| report_node := e0;
             messageId := noUselessTemplateLiteral;
             fix_ := fixSingle node |} ]
    | None => []   (* not reached: the test above found one expression *)
    end
  else
    (λ expression,
       {| report_node := expression;
          messageId := noUselessTemplateLiteral;
          fix_ := fixGeneral node expression |})
    <$> fixableExpressions node.

End NoUselessTemplateLiterals.

(* ===================================================================== *)
(** ** [explicit-function-return-type] *)
(* ===================================================================== *)

Module ExplicitFunctionReturnType.

(** *** Calls that may throw *)

Inductive result (A : Type) : Type :=
| Ok (a : A)
| Throw (message : string).
Arguments Ok {A} a.
Arguments Throw {A} message.

Definition bind {A B} (m : result A) (k : A → result B) : result B :=
  match m with
  | Ok a => k a
  | Throw message => Throw message
  end.

#[export] Instance result_bind : MBind result := λ A B k m, bind m k.

(** Modelled from the spec: [nullThrows] of [../util] is not among the
    sources; by the spec an absent value at a function exit must fail
    loudly, thrown immediately and not swallowed. *)
Definition nullThrows {A} (value : option A) (message : string) : result A :=
  match value with
  | Some a => Ok a
  | None => Throw message
  end.

(** *** Options and nodes *)

Record Options : Type := {
  allowExpressions : bool;
  allowTypedFunctionExpressions : bool;
  allowHigherOrderFunctions : bool;
  allowDirectConstAssertionInArrowFunctions : bool;
  allowConciseArrowFunctionExpressionsStartingWithVoid : bool;
  allowFunctionsWithoutTypeParameters : bool;
  allowedNames : option (list string);
  allowIIFEs : bool;
}.

Definition defaultOptions : Options := {|
  allowExpressions := false;
  allowTypedFunctionExpressions := true;
  allowHigherOrderFunctions := true;
  allowDirectConstAssertionInArrowFunctions := true;
  allowConciseArrowFunctionExpressionsStartingWithVoid := false;
  allowFunctionsWithoutTypeParameters := false;
  allowedNames := Some [];
  allowIIFEs := false;
|}.

(** The options with [allowIIFEs] set, the rest unchanged. *)
Definition withAllowIIFEs (b : bool) (o : Options) : Options := {|
  allowExpressions := allowExpressions o;
  allowTypedFunctionExpressions := allowTypedFunctionExpressions o;
  allowHigherOrderFunctions := allowHigherOrderFunctions o;
  allowDirectConstAssertionInArrowFunctions :=
    allowDirectConstAssertionInArrowFunctions o;
  allowConciseArrowFunctionExpressionsStartingWithVoid :=
    allowConciseArrowFunctionExpressionsStartingWithVoid o;
  allowFunctionsWithoutTypeParameters := allowFunctionsWithoutTypeParameters o;
  allowedNames := allowedNames o;
  allowIIFEs := b;
|}.

(** A declarator's [id] or a member's [key]: an identifier with its name,
    or a node of another kind. *)
Inductive NameNode : Type :=
| IdentifierName (name : string)
| OtherName.

(** Parents whose kind the rule does not single out. *)
Inductive OtherParentKind : Set :=
| KExpressionStatement | KProgram | KReturnStatement | KMemberExpression
| KTSAsExpression | KArrowFunctionExpression.

(** [node.parent], with the fields the rule reads. *)
Inductive ParentNode : Type :=
| VariableDeclarator (id : NameNode)
| MethodDefinition (key : NameNode) (computed : bool)
| PropertyDefinition (key : NameNode) (computed : bool)
| Property (key : NameNode) (computed : bool)
| CallExpression
| OtherParent (kind : OtherParentKind).

Definition parentType (p : ParentNode) : AST_NODE_TYPES.t :=
  match p with
  | VariableDeclarator _ => AST_NODE_TYPES.VariableDeclarator
  | MethodDefinition _ _ => AST_NODE_TYPES.MethodDefinition
  | PropertyDefinition _ _ => AST_NODE_TYPES.PropertyDefinition
  | Property _ _ => AST_NODE_TYPES.Property
  | CallExpression => AST_NODE_TYPES.CallExpression
  | OtherParent KExpressionStatement => AST_NODE_TYPES.ExpressionStatement
  | OtherParent KProgram => AST_NODE_TYPES.Program
  | OtherParent KReturnStatement => AST_NODE_TYPES.ReturnStatement
  | OtherParent KMemberExpression => AST_NODE_TYPES.MemberExpression
  | OtherParent KTSAsExpression => AST_NODE_TYPES.TSAsExpression
  | OtherParent KArrowFunctionExpression =>
      AST_NODE_TYPES.ArrowFunctionExpression
  end.

(** [node.body]: its kind and, for a unary expression, its operator. *)
Record BodyNode : Type := {
  body_type : AST_NODE_TYPES.t;
  operator : option string;
}.

Inductive FunctionType : Set :=
| ArrowFunctionExpression
| FunctionDeclaration
| FunctionExpression.

Record FunctionNode : Type := {
  type : FunctionType;
  range : ESTree.Range;
  parent : ParentNode;
  id : option string;                  (* [node.id?.name] *)
  typeParameters : option (list string);
  returnType : option string;
  expression : bool;
  body : BodyNode;
}.

Record ReturnStatementNode : Type := {
  return_range : ESTree.Range;
}.

Record FunctionInfo : Type := {
  node : FunctionNode;
  returns : list ReturnStatementNode;
}.

Record Position : Type := { line : Z; column : Z }.
Record SourceLocation : Type := { loc_start : Position; loc_end : Position }.

Inductive MessageIds : Set := missingReturnType.

(** One [context.report({ node, loc, messageId })]. *)
Record Report : Type := {
  report_node : FunctionNode;
  report_loc : SourceLocation;
  report_messageId : MessageIds;
}.

(** [functionInfoStack]: an array, pushed and popped at its end. *)
Definition Stack : Type := list FunctionInfo.

Section Rule.

(** The helpers of [../util/explicitReturnTypeUtils], which is not among
    the sources: the two tests of the typed-function-expression
    exemption, and the exemption test and report location inside
    [checkFunctionReturnType]. *)
Variable isValidFunctionExpressionReturnType : FunctionNode → Options → bool.
Variable ancestorHasReturnType : FunctionNode → bool.
Variable isValidFunctionReturnType : FunctionInfo → Options → bool.
Variable getFunctionHeadLoc : FunctionNode → SourceLocation.

Variable options : Options.

(** Modelled from the spec: [checkFunctionReturnType] of
    [../util/explicitReturnTypeUtils] is not among the sources; by the
    spec it reports at the function's declared location unless a
    consistency policy over the collected [returns] exempts the
    function. *)
Definition checkFunctionReturnType (info : FunctionInfo)
    (report : SourceLocation → Report) : list Report :=
  if isValidFunctionReturnType info options then []
  else [ report (getFunctionHeadLoc (node info)) ].

Definition enterFunction (node : FunctionNode) (functionInfoStack : Stack)
    : Stack :=
  functionInfoStack ++ [ {| node := node; returns := [] |} ].

(** [functionInfoStack.pop()]: the last element, or [undefined], and the
    array without it. *)
Definition pop (functionInfoStack : Stack) : option FunctionInfo * Stack :=
  (last functionInfoStack, removelast functionInfoStack).

Definition popFunctionInfo (exitNodeType : string) (functionInfoStack : Stack)
    : result (FunctionInfo * Stack) :=
  let '(popped, rest) := pop functionInfoStack in
  info ← nullThrows popped
                ("Stack should exist on " ++ exitNodeType ++ " exit");
  Ok (info, rest).

Definition isIIFE (node : FunctionNode) : bool :=
  AST_NODE_TYPES.eqb (parentType (parent node)) AST_NODE_TYPES.CallExpression.

(** [options.allowedNames.includes(name)] *)
Definition includes (names : list string) (name : string) : bool :=
  existsb (String.eqb name) names.

(** The name a function expression goes by: its own [id], or the one
    inferred from the enclosing declarator or member. *)
Definition funcName (node : FunctionNode) : option string :=
  if JS.truthy (id node) then id node
  else
    match parent node with
    | VariableDeclarator (IdentifierName name) => Some name
    | MethodDefinition (IdentifierName name) false
    | PropertyDefinition (IdentifierName name) false
    | Property (IdentifierName name) false => Some name
    | _ => None
    end.

Definition isAllowedFunction (node : FunctionNode) : bool :=
  if allowFunctionsWithoutTypeParameters options
     && negb (bool_decide (is_Some (typeParameters node)))
  then true
  else if allowIIFEs options && isIIFE node then true
  else
    match allowedNames options with
    | None | Some [] => false
    | Some names =>
        if match type node with
           | ArrowFunctionExpression | FunctionExpression =>
               JS.truthy (funcName node)
               && match funcName node with
                  | Some name => includes names name
                  | None => false
                  end
           | FunctionDeclaration => false
           end
        then true
        else
          match type node, id node with
          | FunctionDeclaration, Some name => includes names name
          | _, _ => false
          end
    end.

Definition isVoidArrow (node : FunctionNode) : bool :=
  allowConciseArrowFunctionExpressionsStartingWithVoid options
  && match type node with ArrowFunctionExpression => true | _ => false end
  && expression node
  && AST_NODE_TYPES.eqb (body_type (body node)) AST_NODE_TYPES.UnaryExpression
  && match operator (body node) with
     | Some op => String.eqb op "void"
     | None => false
     end.

Definition missing (node : FunctionNode) (loc : SourceLocation) : Report :=
  {| report_node := node; report_loc := loc;
     report_messageId := missingReturnType |}.

(** Each handler maps the stack to the reports it sends and the new
    stack, or throws. *)
Definition exitFunctionExpression (node : FunctionNode)
    (functionInfoStack : Stack) : result (list Report * Stack) :=
  '(info, rest) ← popFunctionInfo "function expression" functionInfoStack;
  if isVoidArrow node then Ok ([], rest)
  else if isAllowedFunction node then Ok ([], rest)
  else if allowTypedFunctionExpressions options
          && (isValidFunctionExpressionReturnType node options
              || ancestorHasReturnType node)
  then Ok ([], rest)
  else Ok (checkFunctionReturnType info (missing node), rest).

Definition exitFunctionDeclaration (node : FunctionNode)
    (functionInfoStack : Stack) : result (list Report * Stack) :=
  '(info, rest) ← popFunctionInfo "function declaration" functionInfoStack;
  if isAllowedFunction node then Ok ([], rest)
  else if allowTypedFunctionExpressions options
          && bool_decide (is_Some (returnType node))
  then Ok ([], rest)
  else Ok (checkFunctionReturnType info (missing node), rest).

(** [functionInfoStack.at(-1)?.returns.push(node)] *)
Definition ReturnStatement (node : ReturnStatementNode)
    (functionInfoStack : Stack) : Stack :=
  match last functionInfoStack with
  | Some info =>
      removelast functionInfoStack
        ++ [ {| node := ExplicitFunctionReturnType.node info;
                returns := returns info ++ [node] |} ]
  | None => functionInfoStack
  end.

(** The tree events the rule listens to. *)
Inductive Event : Type :=
| Enter (node : FunctionNode)
| Exit (node : FunctionNode)
| Return (node : ReturnStatementNode).

(** The visitor map: the handler of each event. *)
Definition dispatch (ev : Event) (functionInfoStack : Stack)
    : result (list Report * Stack) :=
  match ev with
  | Enter node => Ok ([], enterFunction node functionInfoStack)
  | Exit node =>
      match type node with
      | ArrowFunctionExpression | FunctionExpression =>
          exitFunctionExpression node functionInfoStack
      | FunctionDeclaration =>
          exitFunctionDeclaration node functionInfoStack
      end
  | Return node => Ok ([], ReturnStatement node functionInfoStack)
  end.

(** A traversal: the events in order, from a given stack; the reports
    are gathered in order and the first throw ends the analysis. *)
Fixpoint run (events : list Event) (functionInfoStack : Stack)
    : result (list Report * Stack) :=
  match events with
  | [] => Ok ([], functionInfoStack)
  | ev :: events' =>
      '(reports, stack') ← dispatch ev functionInfoStack;
      '(reports', stack'') ← run events' stack';
      Ok (reports ++ reports', stack'')
  end.

End Rule.

(** The message of the throw at the exit of a function of each kind. *)
Definition exitMessage (node : FunctionNode) : string :=
  "Stack should exist on "
  ++ match type node with
     | FunctionDeclaration => "function declaration"
     | _ => "function expression"
     end ++ " exit".

End ExplicitFunctionReturnType.

(* ===================================================================== *)
(** ** The tree supplier's contract on template literals *)
(* ===================================================================== *)

Module Layout.
Import ESTree.

(** The least width of an expression's text: a template literal has its
    two backticks, any other expression one character. *)
Definition minWidth (e : Expression) : Z :=
  match e with
  | TemplateLiteral _ _ _ => 2
  | _ => 1
  end.

(** The ranges of the quasis and expressions of a template literal
    alternate in source order: offsets are not negative, a quasi followed
    by an expression spans at least its opening character and the two of
    [${], the last quasi at least [}] and the backtick, and every
    expression lies between the quasis around it. *)
Fixpoint slotsOk (qs : list TemplateElement) (es : list Expression) : bool :=
  match qs, es with
  | [q], [] =>
      (0 <=? (quasi_range q).1)
      && ((quasi_range q).1 + 2 <=? (quasi_range q).2)
  | q :: qs', e :: es' =>
      (0 <=? (quasi_range q).1)
      && ((quasi_range q).1 + 3 <=? (quasi_range q).2)
      && ((quasi_range q).2 <=? (range e).1)
      && ((range e).1 + minWidth e <=? (range e).2)
      && match qs' with
         | q' :: _ => (range e).2 <=? (quasi_range q').1
         | [] => false
         end
      && slotsOk qs' es'
  | _, _ => false
  end.

Definition wellFormed (node : TemplateLiteralNode) : bool :=
  slotsOk (quasis node) (expressions node).

Definition qstart (q : TemplateElement) : Z := (quasi_range q).1.
Definition qend (q : TemplateElement) : Z := (quasi_range q).2.

(** [e] ends where, or before, [e'] starts. *)
Definition before (e e' : Expression) : Prop := (range e).2 ≤ (range e').1.

(** The source text of a quasi: its raw text between the delimiters that
    the tree supplier includes in its range (for a quasi without carriage
    returns, which the raw text normalises). *)
Definition quasiText (first last_ : bool) (q : TemplateElement) : string :=
  (if first then "`" else "}") ++ quasi_raw q
    ++ (if last_ then "`" else "${").

(** The range of a quasi lies in the source and holds the quasi's text. *)
Definition quasiMatches (src : string) (first last_ : bool)
    (q : TemplateElement) : bool :=
  (0 <=? (quasi_range q).1)
  && ((quasi_range q).1 <=? (quasi_range q).2)
  && ((quasi_range q).2 <=? JS.length src)
  && String.eqb (JS.slice src (quasi_range q).1 (quasi_range q).2)
       (quasiText first last_ q).

(** The text of a literal is its [raw], that of an identifier its name. *)
Definition expressionMatches (src : string) (e : Expression) : bool :=
  match e with
  | Literal r raw _ => String.eqb (JS.slice src r.1 r.2) raw
  | Identifier r name => String.eqb (JS.slice src r.1 r.2) name
  | _ => true
  end.

Fixpoint quasisMatch (src : string) (first : bool)
    (qs : list TemplateElement) : bool :=
  match qs with
  | [] => true
  | [q] => quasiMatches src first true q
  | q :: qs' => quasiMatches src first false q && quasisMatch src false qs'
  end.

(** The tree of a template literal agrees with the source text. *)
Definition matchesSource (src : string) (node : TemplateLiteralNode) : bool :=
  wellFormed node
  && quasisMatch src true (quasis node)
  && forallb (expressionMatches src) (expressions node)
  && match head (quasis node), last (quasis node) with
     | Some q, Some q' =>
         range_eqb (node_range node) ((quasi_range q).1, (quasi_range q').2)
     | _, _ => false
     end.

End Layout.

(* ===================================================================== *)
(** ** Escaping in template text *)
(* ===================================================================== *)

Module Escaping.

Definition isBackslash (c : ascii) : bool := Ascii.eqb c JS.backslash.

(** The characters that open or close syntax in template text. *)
Definition special : list ascii := [JS.backtick; JS.dollar].

(** The escaping in the spec's words: a backtick, or a [$] followed by an
    opening brace, gets a backslash when an even number of backslashes
    precedes it; [escaped] is the parity of the backslashes just read. *)
Fixpoint specEscapeFrom (escaped : bool) (l : list ascii) : list ascii :=
  match l with
  | [] => []
  | c :: l' =>
      if escaped then c :: specEscapeFrom false l'
      else if isBackslash c then c :: specEscapeFrom true l'
      else if Ascii.eqb c JS.backtick
              || (Ascii.eqb c JS.dollar
                  && match l' with
                     | c' :: _ => Ascii.eqb c' JS.lbrace
                     | [] => false
                     end)
      then JS.backslash :: c :: specEscapeFrom false l'
      else c :: specEscapeFrom false l'
  end.

Definition specEscape (s : string) : string :=
  JS.str (specEscapeFrom false (JS.chars s)).

(** Every backtick and [$] of the text follows an odd number of
    backslashes: the text, put between backticks, is one quasi. *)
Fixpoint escapedOnlyFrom (escaped : bool) (l : list ascii) : bool :=
  match l with
  | [] => true
  | c :: l' =>
      if escaped then escapedOnlyFrom false l'
      else if isBackslash c then escapedOnlyFrom true l'
      else negb (JS.inClass special c) && escapedOnlyFrom false l'
  end.

Definition templateSafe (s : string) : bool :=
  escapedOnlyFrom false (JS.chars s).

(** Every backtick and [$] of the text follows an even number of
    backslashes: none of them is escaped already. *)
Fixpoint unescapedOnlyFrom (escaped : bool) (l : list ascii) : bool :=
  match l with
  | [] => true
  | c :: l' =>
      if escaped then negb (JS.inClass special c) && unescapedOnlyFrom false l'
      else if isBackslash c then unescapedOnlyFrom true l'
      else unescapedOnlyFrom false l'
  end.

Definition noneEscaped (s : string) : bool :=
  unescapedOnlyFrom false (JS.chars s).

(** A backslash before each character of the class, the rest as it is. *)
Definition prefixed (cls : list ascii) (c : ascii) : list ascii :=
  if JS.inClass cls c then [JS.backslash; c] else [c].

(** The text a literal is inlined from, and the characters escaped in it:
    the two branches of [escapedValue]. *)
Definition escapeBase (raw : string) (value : ESTree.LiteralValue) : string :=
  match value with
  | ESTree.StringValue _ => JS.slice raw 1 (-1)
  | _ => NoUselessTemplateLiterals.String_ value
  end.

Definition escapeClass (value : ESTree.LiteralValue) : list ascii :=
  match value with
  | ESTree.StringValue _ => special
  | _ => special ++ [JS.backslash]
  end.

Definition isStringValue (value : ESTree.LiteralValue) : bool :=
  match value with
  | ESTree.StringValue _ => true
  | _ => false
  end.

End Escaping.

(* ===================================================================== *)
(** ** Sample trees *)
(* ===================================================================== *)

Module TemplateSamples.
Import ESTree NoUselessTemplateLiterals.

(** A type service for the samples: identifiers are [string]-typed,
    string literals have a string literal type, other literals a number
    literal type, nested templates are strings. *)
Definition services : ParserServices := λ e,
  match e with
  | Identifier _ _ => TS.string_
  | Literal _ _ (StringValue _) => TS.PlainType TS.TypeFlags.StringLiteral
  | Literal _ _ _ => TS.PlainType TS.TypeFlags.NumberLiteral
  | TemplateLiteral _ _ _ => TS.string_
  | Other _ _ => TS.PlainType TS.TypeFlags.Any
  end.

Definition quasi (a b : Z) (raw : string) : TemplateElement :=
  {| quasi_range := (a, b); quasi_raw := raw |}.

(** [`${name}`] *)
Definition singleSrc : string := "`${name}`".
Definition single : TemplateLiteralNode := {|
  parent_type := AST_NODE_TYPES.VariableDeclarator;
  node_range := (0, 9);
  quasis := [quasi 0 3 ""; quasi 7 9 ""];
  expressions := [Identifier (3, 7) "name"];
|}.

(** [tag`${name}`]: the template of a tagged template expression. *)
Definition tagged : TemplateLiteralNode := {|
  parent_type := AST_NODE_TYPES.TaggedTemplateExpression;
  node_range := (3, 12);
  quasis := [quasi 3 6 ""; quasi 10 12 ""];
  expressions := [Identifier (6, 10) "name"];
|}.

(** [`${1}-${2}`] *)
Definition twoLiteralsSrc : string := "`${1}-${2}`".
Definition twoLiterals : TemplateLiteralNode := {|
  parent_type := AST_NODE_TYPES.VariableDeclarator;
  node_range := (0, 11);
  quasis := [quasi 0 3 ""; quasi 4 8 "-"; quasi 9 11 ""];
  expressions := [Literal (3, 4) "1" (NumberValue "1");
                  Literal (8, 9) "2" (NumberValue "2")];
|}.

(** [`a${name}b${'c'}${`d`}${NaN}`] *)
Definition mixedSrc : string := "`a${name}b${'c'}${`d`}${NaN}`".
Definition mixed : TemplateLiteralNode := {|
  parent_type := AST_NODE_TYPES.VariableDeclarator;
  node_range := (0, 29);
  quasis := [quasi 0 4 "a"; quasi 8 12 "b"; quasi 15 18 "";
             quasi 21 24 ""; quasi 27 29 ""];
  expressions := [Identifier (4, 8) "name";
                  Literal (12, 15) "'c'" (StringValue "c");
                  TemplateLiteral (18, 21) [quasi 18 21 "d"] [];
                  Identifier (24, 27) "NaN"];
|}.

(** [`$${'{1}'}`]: a quasi ending in [$], then a string literal that
    starts with an opening brace. *)
Definition dollarBraceSrc : string := "`$${'{1}'}`".
Definition dollarBrace : TemplateLiteralNode := {|
  parent_type := AST_NODE_TYPES.VariableDeclarator;
  node_range := (0, 11);
  quasis := [quasi 0 4 "$"; quasi 9 11 ""];
  expressions := [Literal (4, 9) "'{1}'" (StringValue "{1}")];
|}.

(** [`${1}`] *)
Definition oneLiteralSrc : string := "`${1}`".
Definition oneLiteral : TemplateLiteralNode := {|
  parent_type := AST_NODE_TYPES.VariableDeclarator;
  node_range := (0, 6);
  quasis := [quasi 0 3 ""; quasi 4 6 ""];
  expressions := [Literal (3, 4) "1" (NumberValue "1")];
|}.

End TemplateSamples.

Module ReturnTypeSamples.
Import ExplicitFunctionReturnType.

(** [(() => 1)()]: the arrow function whose parent is the call. *)
Definition iifeArrow : FunctionNode := {|
  type := ArrowFunctionExpression;
  range := (1, 8);
  parent := CallExpression;
  id := None;
  typeParameters := None;
  returnType := None;
  expression := true;
  body := {| body_type := AST_NODE_TYPES.Literal; operator := None |};
|}.

Definition iifeArrowInfo : FunctionInfo :=
  {| node := iifeArrow; returns := [] |}.

(** [function f() { return 1; }] at the top of a program. *)
Definition declaration : FunctionNode := {|
  type := FunctionDeclaration;
  range := (0, 27);
  parent := OtherParent KProgram;
  id := Some "f";
  typeParameters := None;
  returnType := None;
  expression := false;
  body := {| body_type := AST_NODE_TYPES.Program; operator := None |};
|}.

Definition headLoc (n : FunctionNode) : SourceLocation :=
  {| loc_start := {| line := 1; column := (range n).1 |};
     loc_end := {| line := 1; column := (range n).1 + 2 |} |}.

Definition noOptions : Options := {|
  allowExpressions := false;
  allowTypedFunctionExpressions := false;
  allowHigherOrderFunctions := false;
  allowDirectConstAssertionInArrowFunctions := false;
  allowConciseArrowFunctionExpressionsStartingWithVoid := false;
  allowFunctionsWithoutTypeParameters := false;
  allowedNames := Some [];
  allowIIFEs := false;
|}.

End ReturnTypeSamples.


(* ===================================================================== *)
(** ** Traversals of nested functions *)
(* ===================================================================== *)

Module Traversal.
Import ExplicitFunctionReturnType.

(** The events of a depth-first walk: return statements, and functions,
    each entered, walked and left in turn. *)
Inductive balanced : list Event → Prop :=
| balanced_nil : balanced []
| balanced_return ret events :
    balanced events → balanced (Return ret :: events)
| balanced_function node inner events :
    balanced inner → balanced events →
    balanced (Enter node :: inner ++ Exit node :: events).

(** The return statements met outside the functions entered on the way:
    [depth] counts the functions entered and not yet left. *)
Fixpoint ownReturns (depth : nat) (events : list Event)
    : list ReturnStatementNode :=
  match events with
  | [] => []
  | Return ret :: events' =>
      match depth with
      | O => ret :: ownReturns O events'
      | S _ => ownReturns depth events'
      end
  | Enter _ :: events' => ownReturns (S depth) events'
  | Exit _ :: events' => ownReturns (Nat.pred depth) events'
  end.

(** The frame with more return statements recorded. *)
Definition withReturns (info : FunctionInfo) (more : list ReturnStatementNode)
    : FunctionInfo :=
  {| node := node info; returns := returns info ++ more |}.

(** The name by which the allow-list knows a function: a declaration's own
    name; for an expression its own name, or else the name of the
    declarator or of the member that is not computed. *)
Definition resolvedName (n : FunctionNode) : option string :=
  match type n with
  | FunctionDeclaration => id n
  | _ => if JS.truthy (funcName n) then funcName n else None
  end.

(** [const foo = function bar() {}]: a named function expression held by a
    declarator of another name. *)
Definition namedExpression : FunctionNode := {|
  type := FunctionExpression;
  range := (12, 29);
  parent := VariableDeclarator (IdentifierName "foo");
  id := Some "bar";
  typeParameters := None;
  returnType := None;
  expression := false;
  body := {| body_type := AST_NODE_TYPES.Program; operator := None |};
|}.

(** [{ [key]: () => 1 }]: an arrow function under a computed key. *)
Definition computedMember : FunctionNode := {|
  type := ArrowFunctionExpression;
  range := (9, 16);
  parent := Property (IdentifierName "key") true;
  id := None;
  typeParameters := None;
  returnType := None;
  expression := true;
  body := {| body_type := AST_NODE_TYPES.Literal; operator := None |};
|}.

(** The options that allow the names [foo] and [key] and nothing else. *)
Definition allowFooKey : Options := {|
  allowExpressions := false;
  allowTypedFunctionExpressions := false;
  allowHigherOrderFunctions := false;
  allowDirectConstAssertionInArrowFunctions := false;
  allowConciseArrowFunctionExpressionsStartingWithVoid := false;
  allowFunctionsWithoutTypeParameters := false;
  allowedNames := Some ["foo"; "key"];
  allowIIFEs := false;
|}.

Definition ret (a b : Z) : ReturnStatementNode := {| return_range := (a, b) |}.

(** The events of
    [function f() { return 1; (() => { return 2; })(); return 3; }]. *)
Definition nestedWalk : list Event :=
  [ Enter ReturnTypeSamples.declaration;
    Return (ret 15 24);
    Enter ReturnTypeSamples.iifeArrow;
    Return (ret 34 43);
    Exit ReturnTypeSamples.iifeArrow;
    Return (ret 51 60);
    Exit ReturnTypeSamples.declaration ].

End Traversal.

(* ===================================================================== *)
(** ** The text a slot is replaced by *)
(* ===================================================================== *)

Module Inlining.
Import ESTree NoUselessTemplateLiterals.

(** The text that takes the place of [${...}] when the fix of a fixable
    expression is applied: the escaped value of a literal, the inside of a
    nested template literal, the text of an identifier. *)
Definition inlined (src : string) (e : Expression) : string :=
  match e with
  | Literal _ raw value => escapedValue raw value
  | TemplateLiteral r _ _ => JS.slice src (r.1 + 1) (r.2 - 1)
  | _ => JS.slice src (range e).1 (range e).2
  end.

End Inlining.

(* ===================================================================== *)
(** ** [no-useless-template-literals], the later revision

    The sources carry a second, later text of the rule after
    [packages/eslint-plugin/tests/docs.test.ts].  It differs from the first
    in the general case: the fixable expressions are visited rightmost
    first, the escaping looks at the backslashes before a character, and one
    flag is carried from slot to slot, whether the text after the current
    slot begins with an opening brace. *)
(* ===================================================================== *)

Module NoUselessTemplateLiteralsRevised.
Import ESTree Fixer NoUselessTemplateLiterals.

(** [fixer.replaceTextRange(range, text)]; modelled as the other fixer
    calls are. *)
Definition replaceTextRange (r : Range) (text : string) : RuleFix :=
  {| fix_range := r; fix_text := text |}.

Definition isBackslash (c : ascii) : bool := Ascii.eqb c JS.backslash.

(** [evenNumOfBackslashesRegExp], the lookbehind
    [(?<!(?:[^\\]|^)(?:\\\\)*\\)], holds at a position when the backslashes
    that end just before it are even in number.  Along a scan from the left
    the flag [escaped] tells that they are odd in number: a backslash read
    when the flag is down raises it, any other character read lowers it. *)
Definition scan (escaped : bool) (c : ascii) : bool :=
  if escaped then false else isBackslash c.

(** [endsWithEscapedDollarSign(str)]: the test of
    [evenNumOfBackslashesRegExp] followed by [\$$], that is, the last
    character is a [$] and the backslashes before it are even in number. *)
Fixpoint endsWithEscapedDollarSignFrom (escaped : bool) (l : list ascii) : bool :=
  match l with
  | [] => false
  | c :: l' =>
      match l' with
      | [] => negb escaped && Ascii.eqb c JS.dollar
      | _ :: _ => endsWithEscapedDollarSignFrom (scan escaped c) l'
      end
  end.

Definition endsWithEscapedDollarSign (str : string) : bool :=
  endsWithEscapedDollarSignFrom false (JS.chars str).

(** [str.startsWith('{')] *)
Definition startsWithBrace (l : list ascii) : bool :=
  match l with
  | c :: _ => Ascii.eqb c JS.lbrace
  | [] => false
  end.

(** [l.replace(new RegExp(evenNumOfBackslashes + '(`|\${)', 'g'), '\\$1')]:
    a backtick, or a [$] with an opening brace after it, that follows an
    even number of backslashes gets a backslash, and the search goes on
    after the match. *)
Fixpoint escapeUnescapedFrom (escaped : bool) (l : list ascii) : list ascii :=
  match l with
  | [] => []
  | c :: l' =>
      if negb escaped
         && (Ascii.eqb c JS.backtick
             || (Ascii.eqb c JS.dollar && startsWithBrace l'))
      then JS.backslash :: c :: escapeUnescapedFrom false l'
      else c :: escapeUnescapedFrom (scan escaped c) l'
  end.

Definition escapeUnescaped (s : string) : string :=
  JS.str (escapeUnescapedFrom false (JS.chars s)).

(** [l.replace(/\\\\/g, '\\\\\\\\')]: every two backslashes in a row become
    four; the matches are taken from the left and do not overlap. *)
Fixpoint doubleBackslashPairs (l : list ascii) : list ascii :=
  match l with
  | c :: ((c' :: l'') as l') =>
      if isBackslash c && isBackslash c'
      then JS.backslash :: JS.backslash :: JS.backslash :: JS.backslash
             :: doubleBackslashPairs l''
      else c :: doubleBackslashPairs l'
  | _ => l
  end.

(** [l.replaceAll(/\$$/g, '\\$')]: a [$] at the end becomes [\$]. *)
Definition escapeTrailingDollar (l : list ascii) : list ascii :=
  match reverse l with
  | c :: l' =>
      if Ascii.eqb c JS.dollar then reverse l' ++ [JS.backslash; JS.dollar]
      else l
  | [] => l
  end.

(** The flag after a text has been put before what follows: the text
    decides when it is not empty ([str.length !== 0]). *)
Definition nextAfter (l : list ascii) (next : bool) : bool :=
  match l with
  | [] => next
  | _ :: _ => startsWithBrace l
  end.

(** The text inlined for a literal before the flag is looked at. *)
Definition escapedBase (raw : string) (value : LiteralValue) : list ascii :=
  escapeUnescapedFrom false
    match value with
    | StringValue _ => JS.chars (JS.slice raw 1 (-1))
    | _ => doubleBackslashPairs (JS.chars (String_ value))
    end.

(** [escapedValue] of the literal branch, given the flag. *)
Definition escapedValue (raw : string) (value : LiteralValue) (next : bool)
    : list ascii :=
  let escaped := escapedBase raw value in
  if next && endsWithEscapedDollarSignFrom false escaped
  then escapeTrailingDollar escaped
  else escaped.

(** The branches on the kind of the expression: the edits pushed on
    [fixers] and the flag afterwards; [None] when the branch throws. *)
Definition fixersOf (expression : Expression) (next : bool)
    : option (list RuleFix * bool) :=
  match expression with
  | Literal _ raw value =>
      let escaped := escapedValue raw value next in
      Some ([ replaceText expression (JS.str escaped) ],
            nextAfter escaped next)
  | TemplateLiteral r qs _ =>
      guard_ ←
        (if next
         then lastQuasi ← last qs;
              Some (if endsWithEscapedDollarSign (quasi_raw lastQuasi)
                    then [ replaceTextRange (r.2 - 2, r.2 - 2) "\" ]
                    else [])
         else Some []);
      Some (guard_ ++ [ removeRange (r.1, r.1 + 1);
                        removeRange (r.2 - 1, r.2) ],
            match qs with
            | [q] => nextAfter (JS.chars (quasi_raw q)) next
            | _ => next
            end)
  | _ => Some ([], false)
  end.

(** The edit pushed last: the [$] that ends the quasi before the slot is
    escaped when the text put after it begins with an opening brace. *)
Definition patchOf (prevQuasi : option TemplateElement) (next : bool)
    : option (list RuleFix) :=
  if next
  then q ← prevQuasi;
       Some (if endsWithEscapedDollarSign (quasi_raw q)
             then [ replaceTextRange ((quasi_range q).2 - 3,
                                      (quasi_range q).2 - 2) "\$" ]
             else [])
  else Some [].

(** One turn of [fixableExpressions.forEach]: the report sent and the flag
    left for the next turn; [None] when the turn throws. *)
Definition turn (node : TemplateLiteralNode) (expression : Expression)
    (nextCharacterIsOpeningCurlyBrace : bool) : option (Report * bool) :=
  let index := JS.indexOf Expression_eqb (expressions node) expression in
  let prevQuasi := JS.at_ (quasis node) index in
  nextQuasi ← JS.at_ (quasis node) (index + 1);
  branch ← fixersOf expression
              (nextAfter (JS.chars (quasi_raw nextQuasi))
                 nextCharacterIsOpeningCurlyBrace);
  patch ← patchOf prevQuasi branch.2;
  Some ({| report_node := expression;
           messageId := noUselessTemplateLiteral;
           fix_ :=
             q ← prevQuasi;
             Some ([ removeRange ((quasi_range q).2 - 2, (range expression).1);
                     removeRange ((range expression).2,
                                  (quasi_range nextQuasi).1 + 1) ]
                   ++ branch.1 ++ patch) |},
        branch.2).

(** [fixableExpressions.forEach(...)] with the flag threaded through. *)
Fixpoint forEach (node : TemplateLiteralNode) (l : list Expression)
    (nextCharacterIsOpeningCurlyBrace : bool) : option (list Report) :=
  match l with
  | [] => Some []
  | expression :: l' =>
      sent ← turn node expression nextCharacterIsOpeningCurlyBrace;
      reports ← forEach node l' sent.2;
      Some (sent.1 :: reports)
  end.

(** [node.expressions.filter(...).reverse()] *)
Definition fixableExpressions (node : TemplateLiteralNode) : list Expression :=
  reverse (List.filter isFixable (expressions node)).

(** The [TemplateLiteral] visitor of the later revision: the reports it
    sends, in order, or [None] when it throws. *)
Definition TemplateLiteral_visitor (services : ParserServices)
    (node : TemplateLiteralNode) : option (list Report) :=
  if AST_NODE_TYPES.eqb (parent_type node)
       AST_NODE_TYPES.TaggedTemplateExpression
  then Some []
  else if hasSingleStringVariable services node
  then
    match expressions node !! 0%nat with
    | Some e0 =>
        Some [ {| report_node := e0;
                  messageId := noUselessTemplateLiteral;
                  fix_ := fixSingle node |} ]
    | None => Some []   (* not reached *)
    end
  else forEach node (fixableExpressions node) false.

(** *** Template text *)

(** The text has no backtick and no [${] after an even number of
    backslashes: put between backticks it is one quasi, with no
    interpolation and no early end. *)
Fixpoint interpolationFreeFrom (escaped : bool) (l : list ascii) : bool :=
  match l with
  | [] => true
  | c :: l' =>
      if negb escaped
         && (Ascii.eqb c JS.backtick
             || (Ascii.eqb c JS.dollar && startsWithBrace l'))
      then false
      else interpolationFreeFrom (scan escaped c) l'
  end.

(** The flag after the whole text has been read. *)
Definition scanAll (escaped : bool) (l : list ascii) : bool :=
  foldl scan escaped l.

(** Template text that a delimiter can follow: no interpolation in it, and
    no backslash left over at its end to escape the delimiter. *)
Definition quasiText (l : list ascii) : bool :=
  interpolationFreeFrom false l && negb (scanAll false l).

(** The guard on a text that may end in an unescaped [$], as the code
    applies it when the text that follows begins with an opening brace. *)
Definition guarded (next : bool) (a : list ascii) : list ascii :=
  if next && endsWithEscapedDollarSignFrom false a
  then escapeTrailingDollar a
  else a.

(** A nested template literal has a quasi. *)
Definition hasQuasis (e : Expression) : bool :=
  match e with
  | TemplateLiteral _ [] _ => false
  | _ => true
  end.

End NoUselessTemplateLiteralsRevised.

(* ===================================================================== *)
(** ** [tests/docs.test.ts]: the rendering of lint results *)
(* ===================================================================== *)

Module DocsTest.

Definition newline : ascii := "010"%char.
Definition tilde : ascii := "~"%char.
Definition space : ascii := " "%char.

(** [Linter.LintMessage], the fields the rendering reads; lines and columns
    count from one, the two ends may be absent. *)
Record LintMessage : Type := {
  line : Z;
  column : Z;
  endLine : option Z;
  endColumn : option Z;
  message : string;
}.

(** [l.split(sep)] for a separator of one character: the pieces between the
    separators, at least one. *)
Fixpoint split (sep : ascii) (l : list ascii) : list (list ascii) :=
  match l with
  | [] => [[]]
  | c :: l' =>
      if Ascii.eqb c sep then [] :: split sep l'
      else
        match split sep l' with
        | piece :: pieces => (c :: piece) :: pieces
        | [] => [[c]]
        end
  end.

(** [pieces.join(sep)] *)
Fixpoint join (sep : list ascii) (pieces : list (list ascii)) : list ascii :=
  match pieces with
  | [] => []
  | [piece] => piece
  | piece :: rest => piece ++ sep ++ join sep rest
  end.

(** White space and line terminators, among the characters of the model:
    tab, line feed, vertical tab, form feed, carriage return, space and the
    no-break space. *)
Definition isWhiteSpace (c : ascii) : bool :=
  bool_decide (nat_of_ascii c ∈ [9; 10; 11; 12; 13; 32; 160]%nat).

Fixpoint trimStart (l : list ascii) : list ascii :=
  match l with
  | c :: l' => if isWhiteSpace c then trimStart l' else l
  | [] => []
  end.

(** [l.trim()] *)
Definition trim (l : list ascii) : list ascii :=
  reverse (trimStart (reverse (trimStart l))).

Definition startLine (error : LintMessage) : Z := line error - 1.

Definition endLine_ (error : LintMessage) : Z :=
  match endLine error with
  | None => startLine error
  | Some l => l - 1
  end.

Definition startColumn (error : LintMessage) : Z := column error - 1.

Definition endColumn_ (error : LintMessage) : Z :=
  match endColumn error with
  | None => startColumn error
  | Some c => c - 1
  end.

(** *** Strings the engine builds

    [String.prototype.repeat], the [+] of two strings and
    [Array.prototype.join] throw a [RangeError] when their result would be
    longer than the longest string the engine holds, and [repeat] throws
    one for a negative count as well. *)

Inductive RangeError : Type :=
| InvalidCountValue
| InvalidStringLength.

(** A call returns a value or throws; a throw ends the function. *)
Inductive completion (A : Type) : Type :=
| Returns (value : A)
| Throws (error : RangeError).

Arguments Returns {A} value.
Arguments Throws {A} error.

#[export] Instance completion_bind : MBind completion := λ A B k m,
  match m with
  | Returns value => k value
  | Throws error => Throws error
  end.

Definition isReturns {A} (m : completion A) : bool :=
  match m with
  | Returns _ => true
  | Throws _ => false
  end.

Section Render.

(** The length of the longest string of the engine. *)
Variable maxStringLength : Z.

(** A string that has been built. *)
Definition built (l : list ascii) : completion (list ascii) :=
  if maxStringLength <? Z.of_nat (length l)
  then Throws InvalidStringLength
  else Returns l.

(** [c.repeat(count)] *)
Definition repeat_ (c : ascii) (count : Z) : completion (list ascii) :=
  if count <? 0 then Throws InvalidCountValue
  else if maxStringLength <? count then Throws InvalidStringLength
  else Returns (replicate (Z.to_nat count) c).

(** [a + b] *)
Definition concat_ (a b : list ascii) : completion (list ascii) :=
  built (a ++ b).

(** [pieces.join(sep)] *)
Definition join_ (sep : list ascii) (pieces : list (list ascii))
    : completion (list ascii) :=
  built (join sep pieces).

(** The body of the inner loop: what one error pushes under line [i]. *)
Definition mark (i : Z) (text : list ascii) (error : LintMessage)
    : completion (list (list ascii)) :=
  if (i <? startLine error) || (endLine_ error <? i) then Returns []
  else if i =? startLine error
  then
    squiggle ← repeat_ tilde (Z.max 1 (endColumn_ error - startColumn error));
    indent ← repeat_ space (startColumn error);
    indented ← concat_ indent squiggle;
    squiggleWithIndent ← concat_ indented [space];
    errorMessageIndent ←
      repeat_ space (Z.of_nat (length squiggleWithIndent));
    separator ← concat_ [newline] errorMessageIndent;
    lines ← join_ separator (split newline (JS.chars (message error)));
    pushed ← concat_ squiggleWithIndent lines;
    Returns [pushed]
  else
    squiggle ← repeat_ tilde
                 (Z.max 1 (Z.of_nat (length text) - startColumn error));
    Returns [squiggle].

(** The inner loop over the errors. *)
Fixpoint marks (i : Z) (text : list ascii) (errors : list LintMessage)
    : completion (list (list ascii)) :=
  match errors with
  | [] => Returns []
  | error :: errors' =>
      pushed ← mark i text error;
      more ← marks i text errors';
      Returns (pushed ++ more)
  end.

(** The outer loop over the lines, from line [i] on. *)
Fixpoint renderLines (i : Z) (lines : list (list ascii))
    (errors : list LintMessage) : completion (list (list ascii)) :=
  match lines with
  | [] => Returns []
  | text :: lines' =>
      pushed ← marks i text errors;
      more ← renderLines (i + 1) lines' errors;
      Returns (text :: pushed ++ more)
  end.

Definition renderLintResults (code : string) (errors : list LintMessage)
    : completion string :=
  output ← renderLines 0 (split newline (JS.chars code)) errors;
  joined ← join_ [newline] output;
  result ← concat_ (trim joined) [newline];
  Returns (JS.str result).

(** What holds of an error that has pushed the line under its start line:
    it has a column, and its squiggle is a string. *)
Definition fits (error : LintMessage) : Prop :=
  1 ≤ column error
  ∧ Z.max 1 (endColumn_ error - startColumn error) ≤ maxStringLength.

End Render.

(** The error starts on a line of the code and does not end before it. *)
Definition startsInside (code : string) (error : LintMessage) : Prop :=
  0 ≤ startLine error
  ∧ startLine error < Z.of_nat (length (split newline (JS.chars code)))
  ∧ startLine error ≤ endLine_ error.

(** A limit as engines have it, [2^29 - 24]. *)
Definition sampleLimit : Z := 536870888.

(** Two errors on [const a;], with [b;] on the line after it: one on the
    code, one that starts beyond it. *)
Definition sampleCode : string :=
  String "c" (String "o" (String "n" (String "s" (String "t" (String " "
  (String "a" (String ";" (String newline (String "b" (String ";"
  EmptyString)))))))))).

Definition sampleErrors : list LintMessage :=
  [ {| line := 1; column := 7; endLine := Some 1; endColumn := Some 8;
       message := "unused" |};
    {| line := 5; column := 0; endLine := None; endColumn := None;
       message := "beyond the code" |} ].

(** An error on the first line with no column. *)
Definition columnZero : LintMessage :=
  {| line := 1; column := 0; endLine := None; endColumn := None;
     message := "no column" |}.

(** An error whose squiggle would be [2^30 - 1] characters long. *)
Definition wideError : LintMessage :=
  {| line := 1; column := 1; endLine := Some 1; endColumn := Some 1073741824;
     message := "wide" |}.

End DocsTest.

(* ===================================================================== *)
(** ** [insertWhenNotToUseIt] *)
(* ===================================================================== *)

Module InsertWhenNotToUseIt.

(** An [mdast] node of the page: its type and, for a heading, its depth. *)
Record MdNode : Type := {
  md_type : string;
  md_depth : option Z;
}.

(** The [RuleDocsPage], as the function reads it. *)
Record RuleDocsPage : Type := {
  requiresTypeChecking : option bool;   (* page.rule.meta.docs.requiresTypeChecking *)
  whenNotToUseIt : Z;                   (* page.headingIndices.whenNotToUseIt *)
  children : list MdNode;
}.

(** The children of the paragraph that is inserted. *)
Inductive Inline : Type :=
| ThematicBreak
| Text (value : string)
| Link (url : string) (text : string).

(** One call [page.spliceChildren(start, deleteCount, paragraph)]. *)
Record SpliceCall : Type := {
  start : Z;
  deleteCount : Z;
  paragraph : list Inline;
}.

(** [l.findIndex(callback, thisArg)]: the index of the first element, from
    the start of the array, that the callback accepts, or [-1]; the second
    argument is the [this] of the callback and plays no part in the
    search. *)
Fixpoint findIndexFrom {A} (callback : A → bool) (l : list A) (i : Z) : Z :=
  match l with
  | [] => -1
  | x :: l' => if callback x then i else findIndexFrom callback l' (i + 1)
  end.

Definition findIndex {A} (callback : A → bool) (thisArg : Z) (l : list A) : Z :=
  findIndexFrom callback l 0.

Section Insert.

(** [nodeIsHeading] of [../../utils/nodes] is not among the sources and is
    taken as given. *)
Variable nodeIsHeading : MdNode → bool.

Definition isDepth2Heading (child : MdNode) : bool :=
  nodeIsHeading child
  && match md_depth child with
     | Some d => d =? 2
     | None => false
     end.

(** The call the function makes: [Some None] when it returns early, [None]
    when it throws. *)
Definition insertWhenNotToUseIt (page : RuleDocsPage)
    : option (option SpliceCall) :=
  match requiresTypeChecking page with
  | None | Some false => Some None
  | Some true =>
      hasExistingText ←
        (if whenNotToUseIt page <? Z.of_nat (length (children page)) - 1
         then child ← JS.at_ (children page) (whenNotToUseIt page + 1);
              Some (negb (String.eqb (md_type child) "heading"))
         else Some false);
      let nextHeadingIndex :=
        findIndex isDepth2Heading (whenNotToUseIt page + 1) (children page)
        + whenNotToUseIt page + 1 in
      Some (Some
        {| start := if nextHeadingIndex =? -1
                    then Z.of_nat (length (children page))
                    else nextHeadingIndex - 1;
           deleteCount := 0;
           paragraph :=
             (if hasExistingText : bool then [ThematicBreak] else [])
             ++ [ Text "Type checked lint rules are more powerful than traditional lint rules, but also require configuring ";
                  Link "/getting-started/typed-linting" "type checked linting";
                  Text ". See ";
                  Link "/troubleshooting/typed-linting/performance"
                    "Troubleshooting > Linting with Type Information > Performance";
                  Text " if you experience performance degredations after enabling type checked rules." ] |})
  end.

End Insert.

(** A page: a title, the heading at index 1, a paragraph, and a later
    heading of depth two. *)
Definition samplePage : RuleDocsPage := {|
  requiresTypeChecking := Some true;
  whenNotToUseIt := 1;
  children :=
    [ {| md_type := "heading"; md_depth := Some 1 |};
      {| md_type := "heading"; md_depth := Some 2 |};
      {| md_type := "paragraph"; md_depth := None |};
      {| md_type := "heading"; md_depth := Some 2 |} ];
|}.

Definition sampleIsHeading (n : MdNode) : bool := String.eqb (md_type n) "heading".

End InsertWhenNotToUseIt.
(* ===================================================================== *)
(** ** Properties of [no-useless-template-literals] *)
(* ===================================================================== *)

Module TemplateLiteralProps.
Import ESTree Fixer NoUselessTemplateLiterals Layout.

(** *** Node kinds and node equality *)

Lemma AST_NODE_TYPES_eqb_eq a b : AST_NODE_TYPES.eqb a b = true ↔ a = b.
Proof. split; [destruct a, b; simpl; congruence | intros ->; by destruct b]. Qed.

Lemma range_eqb_eq a b : range_eqb a b = true ↔ a = b.
Proof.
  destruct a as [a1 a2], b as [b1 b2]. unfold range_eqb; simpl.
  rewrite andb_true_iff, !Z.eqb_eq. split; [intros [-> ->]; done | by inversion 1].
Qed.

Lemma TemplateElement_eqb_refl q : TemplateElement_eqb q q = true.
Proof.
  unfold TemplateElement_eqb.
  rewrite (proj2 (range_eqb_eq _ _) eq_refl), String.eqb_refl. done.
Qed.

Lemma list_eqb_refl {A} (eqb : A → A → bool) l :
  (∀ x, eqb x x = true) → list_eqb eqb l l = true.
Proof. intros H. induction l as [|x l IH]; simpl; [done|]. by rewrite H, IH. Qed.

Lemma LiteralValue_eqb_refl v : LiteralValue_eqb v v = true.
Proof.
  destruct v as [s|s|[]| |s|s1 s2]; simpl; rewrite ?String.eqb_refl; done.
Qed.

Lemma Expression_eqb_refl : ∀ e, Expression_eqb e e = true.
Proof.
  fix IH 1. intros [r raw v|r qs es|r n|k r]; simpl.
  - by rewrite (proj2 (range_eqb_eq _ _) eq_refl), String.eqb_refl,
      LiteralValue_eqb_refl.
  - rewrite (proj2 (range_eqb_eq _ _) eq_refl),
      (list_eqb_refl _ _ TemplateElement_eqb_refl). simpl.
    induction es as [|e es IHes]; [done|].
    by rewrite IH, IHes.
  - by rewrite (proj2 (range_eqb_eq _ _) eq_refl), String.eqb_refl.
  - rewrite (proj2 (range_eqb_eq _ _) eq_refl). unfold OtherKind_eqb.
    by rewrite (proj2 (AST_NODE_TYPES_eqb_eq _ _) eq_refl).
Qed.

Lemma Expression_eqb_range a b : Expression_eqb a b = true → range a = range b.
Proof.
  destruct a, b; simpl; try discriminate;
    rewrite ?andb_true_iff; intros H; apply range_eqb_eq; tauto.
Qed.

(** *** [indexOf] and array reads *)

Section IndexOf.
Context {A : Type} (eqb : A → A → bool).

Lemma indexOfFrom_at (l : list A) x (i : nat) base :
  l !! i = Some x →
  eqb x x = true →
  (∀ k y, (k < i)%nat → l !! k = Some y → eqb y x = false) →
  JS.indexOfFrom eqb l x base = base + Z.of_nat i.
Proof.
  revert i base. induction l as [|y l IH]; intros i base Hi Hrefl Hne; [done|].
  destruct i as [|i]; simpl in *.
  - inversion Hi; subst. rewrite Hrefl. lia.
  - rewrite (Hne 0%nat y); [|lia|done].
    rewrite (IH i (base + 1)); [lia|done..|].
    intros k z Hk Hz. apply (Hne (S k)); [lia|done].
Qed.

Lemma at_nat (l : list A) (i : nat) : JS.at_ l (Z.of_nat i) = l !! i.
Proof.
  unfold JS.at_. destruct (Z.ltb_spec (Z.of_nat i) 0); [lia|].
  by rewrite Nat2Z.id.
Qed.

End IndexOf.

(** *** The order of the ranges of a well-formed template literal *)

(** Splits the conjunctions of boolean tests among the hypotheses. *)
Ltac bool_hyps :=
  repeat match goal with
         | H : _ && _ = true |- _ => apply andb_true_iff in H as [? ?]
         | H : (_ <=? _) = true |- _ => apply Z.leb_le in H
         | H : String.eqb _ _ = true |- _ => apply String.eqb_eq in H
         | H : range_eqb _ _ = true |- _ => apply range_eqb_eq in H
         end.

Lemma slotsOk_lookup qs es i e :
  slotsOk qs es = true →
  es !! i = Some e →
  ∃ q q', qs !! i = Some q ∧ qs !! S i = Some q'
    ∧ qstart q + 3 ≤ qend q ∧ qend q ≤ (range e).1
    ∧ (range e).1 + minWidth e ≤ (range e).2
    ∧ (range e).2 ≤ qstart q' ∧ qstart q' + 2 ≤ qend q'
    ∧ 0 ≤ qstart q.
Proof.
  revert es i. induction qs as [|q qs IH]; intros es i Hok Hi; [done|].
  destruct es as [|e0 es]; [done|].
  simpl in Hok. destruct qs as [|q' qs]; [bool_hyps; discriminate|].
  bool_hyps.
  match goal with H : slotsOk _ _ = true |- _ => rename H into Hrest end.
  unfold qstart, qend in *.
  destruct i as [|i]; simpl in Hi.
  - inversion Hi; subst. exists q, q'. repeat split; try lia; try done.
    destruct es, qs; simpl in Hrest; try discriminate; bool_hyps; lia.
  - destruct (IH es i) as (q1 & q2 & ? & ? & ?); [done..|].
    exists q1, q2. repeat split; done || tauto.
Qed.

Lemma slotsOk_length qs es :
  slotsOk qs es = true → length qs = S (length es).
Proof.
  revert es. induction qs as [|q qs IH]; intros es Hok; [done|].
  destruct es as [|e es]; simpl in *.
  - by destruct qs.
  - destruct qs as [|q' qs]; bool_hyps; [discriminate|].
    f_equal. by apply IH.
Qed.

(** An expression ends before every later quasi starts. *)
Lemma expression_before_quasi qs es i j e q :
  slotsOk qs es = true →
  (i < j)%nat → es !! i = Some e → qs !! j = Some q →
  (range e).2 ≤ qstart q.
Proof.
  intros Hok. revert q. induction j as [|j IH]; intros q Hij Hi Hj; [lia|].
  destruct (decide (i = j)) as [->|Hne].
  - destruct (slotsOk_lookup _ _ _ _ Hok Hi) as (q1 & q2 & ? & Hq2 & ?).
    rewrite Hj in Hq2. inversion Hq2; subst. lia.
  - assert (Hlen : (S j < length qs)%nat) by (by eapply lookup_lt_Some).
    rewrite (slotsOk_length _ _ Hok) in Hlen.
    destruct (lookup_lt_is_Some_2 es j) as [e' He']; [lia|].
    destruct (slotsOk_lookup _ _ _ _ Hok He') as (q1 & q2 & Hq1 & Hq2 & ?).
    rewrite Hj in Hq2. inversion Hq2; subst.
    specialize (IH q1 ltac:(lia) Hi Hq1).
    pose proof (minWidth e') as Hw. assert (0 ≤ minWidth e') by (destruct e'; simpl; lia).
    lia.
Qed.

(** A quasi ends before the expression that follows it, and every later
    one, starts. *)
Lemma quasi_before_expression qs es i j e q :
  slotsOk qs es = true →
  (i ≤ j)%nat → qs !! i = Some q → es !! j = Some e →
  qend q ≤ (range e).1.
Proof.
  intros Hok Hij Hi Hj.
  destruct (slotsOk_lookup _ _ _ _ Hok Hj) as (q1 & q2 & Hq1 & Hq2 & ?).
  destruct (decide (i = j)) as [->|Hne].
  - rewrite Hi in Hq1. inversion Hq1; subst. lia.
  - assert (Hlen : (j < length es)%nat) by (by eapply lookup_lt_Some).
    destruct (lookup_lt_is_Some_2 es i) as [e' He']; [lia|].
    destruct (slotsOk_lookup _ _ _ _ Hok He') as (q3 & q4 & Hq3 & ? & ?).
    rewrite Hi in Hq3. inversion Hq3; subst.
    pose proof (expression_before_quasi _ _ i j e' q1 Hok ltac:(lia) He' Hq1).
    assert (0 ≤ minWidth e') by (destruct e'; simpl; lia).
    lia.
Qed.

(** Sibling expressions are told apart by their ranges, so [indexOf] finds
    each expression at its own position. *)
Lemma indexOf_expression qs es i e :
  slotsOk qs es = true →
  es !! i = Some e →
  JS.indexOf Expression_eqb es e = Z.of_nat i.
Proof.
  intros Hok Hi. unfold JS.indexOf.
  rewrite (indexOfFrom_at Expression_eqb es e i 0 Hi); [lia|apply Expression_eqb_refl|].
  intros k e' Hk He'.
  destruct (Expression_eqb e' e) eqn:Heq; [|done].
  apply Expression_eqb_range in Heq.
  destruct (slotsOk_lookup _ _ _ _ Hok Hi) as (q1 & q2 & Hq1 & ? & ?).
  pose proof (expression_before_quasi _ _ k i e' q1 Hok Hk He' Hq1).
  destruct (slotsOk_lookup _ _ _ _ Hok He') as (q3 & q4 & ? & ? & ?).
  assert (1 ≤ minWidth e') by (destruct e'; simpl; lia).
  rewrite Heq in *. unfold qstart, qend in *. lia.
Qed.

(** The edits of the report of the expression at position [i]. *)
Lemma fixGeneral_at node i e :
  wellFormed node = true →
  expressions node !! i = Some e →
  ∃ prevQuasi nextQuasi,
    quasis node !! i = Some prevQuasi
    ∧ quasis node !! S i = Some nextQuasi
    ∧ fixGeneral node e =
        Some ([ removeRange (qend prevQuasi - 2, (range e).1);
                removeRange ((range e).2, qstart nextQuasi + 1) ]
              ++ match e with
                 | Literal _ raw value => [ replaceText e (escapedValue raw value) ]
                 | TemplateLiteral r _ _ =>
                     [ removeRange (r.1, r.1 + 1); removeRange (r.2 - 1, r.2) ]
                 | _ => []
                 end).
Proof.
  intros Hok Hi. unfold wellFormed in Hok.
  destruct (slotsOk_lookup _ _ _ _ Hok Hi) as (q & q' & Hq & Hq' & _).
  exists q, q'. split; [done|]. split; [done|].
  unfold fixGeneral. rewrite (indexOf_expression _ _ _ _ Hok Hi).
  replace (Z.of_nat i + 1) with (Z.of_nat (S i)) by lia.
  rewrite !at_nat, Hq, Hq'. simpl.
  destruct e; simpl; rewrite ?app_nil_r; done.
Qed.

Lemma visitor_general services node :
  parent_type node ≠ AST_NODE_TYPES.TaggedTemplateExpression →
  hasSingleStringVariable services node = false →
  TemplateLiteral_visitor services node =
    (λ expression,
       {| report_node := expression;
          messageId := noUselessTemplateLiteral;
          fix_ := fixGeneral node expression |})
    <$> fixableExpressions node.
Proof.
  intros Hparent Hsingle. unfold TemplateLiteral_visitor.
  destruct (AST_NODE_TYPES.eqb _ _) eqn:Heq.
  - by apply AST_NODE_TYPES_eqb_eq in Heq.
  - by rewrite Hsingle.
Qed.

Lemma elem_of_fixableExpressions node e :
  e ∈ fixableExpressions node ↔ e ∈ expressions node ∧ isFixable e = true.
Proof.
  unfold fixableExpressions. rewrite !list_elem_of_In. apply filter_In.
Qed.

(** *** String-likeness *)

Lemma isString_hasStringLike t : isString t = true ↔ TS.hasStringLike t.
Proof.
  unfold isString, TS.isTypeFlagSet, TS.hasStringLike.
  rewrite negb_true_iff, Z.eqb_neq. done.
Qed.

(** C1. [isUnderlyingTypeString] holds of an expression with a union type
    exactly when every member of the union has a [StringLike] flag, of one
    with an intersection type exactly when some member has one, and
    otherwise exactly when the type itself has one.  An expression of type
    [string | number] is not string-like, one of type [string & Branded]
    is. *)
Theorem isUnderlyingTypeString_union_every_intersection_some
    (services : ParserServices) (expression : Expression) :
  match getConstrainedTypeAtLocation services expression with
  | TS.UnionType _ types =>
      isUnderlyingTypeString services expression = true
      ↔ Forall TS.hasStringLike types
  | TS.IntersectionType _ types =>
      isUnderlyingTypeString services expression = true
      ↔ Exists TS.hasStringLike types
  | TS.PlainType _ as type =>
      isUnderlyingTypeString services expression = true ↔ TS.hasStringLike type
  end
  ∧ isUnderlyingTypeString
      (λ _, TS.UnionType TS.TypeFlags.Union [TS.string_; TS.number_])
      expression = false
  ∧ isUnderlyingTypeString
      (λ _, TS.IntersectionType TS.TypeFlags.Intersection [TS.string_; TS.Branded])
      expression = true.
Proof.
  split; [|by split].
  unfold isUnderlyingTypeString.
  destruct (getConstrainedTypeAtLocation services expression) as [f ts|f ts|f].
  - rewrite forallb_forall, Forall_forall.
    split; intros H t Ht; apply isString_hasStringLike, H;
      by apply list_elem_of_In.
  - rewrite existsb_exists, Exists_exists.
    split; intros (t & Ht & Hs); exists t;
      (split; [by apply list_elem_of_In | by apply isString_hasStringLike]).
  - apply isString_hasStringLike.
Qed.

(** C3. The visitor sends no report for a template literal whose parent is a
    tagged template expression, whatever its quasis, its expressions and
    their types. *)
Theorem tagged_template_is_never_reported
    (services : ParserServices) (node : TemplateLiteralNode) :
  parent_type node = AST_NODE_TYPES.TaggedTemplateExpression →
  TemplateLiteral_visitor services node = [].
Proof. intros H. unfold TemplateLiteral_visitor. by rewrite H. Qed.

Lemma tagged_template_is_never_reported_witness :
  parent_type TemplateSamples.tagged = AST_NODE_TYPES.TaggedTemplateExpression
  ∧ hasSingleStringVariable TemplateSamples.services TemplateSamples.tagged = true
  ∧ TemplateLiteral_visitor TemplateSamples.services TemplateSamples.tagged = [].
Proof.
  split; [reflexivity|]. split; [reflexivity|].
  apply (tagged_template_is_never_reported TemplateSamples.services
           TemplateSamples.tagged).
  reflexivity.
Defined.

(** *** The general case *)

Lemma isFixable_iff e :
  isFixable e = true
  ↔ type e = AST_NODE_TYPES.Literal
    ∨ type e = AST_NODE_TYPES.TemplateLiteral
    ∨ ∃ r name, e = Identifier r name
        ∧ (name = "undefined" ∨ name = "Infinity" ∨ name = "NaN").
Proof.
  unfold isFixable, isLiteral, isTemplateLiteral, isUndefinedIdentifier,
    isInfinityIdentifier, isNaNIdentifier.
  rewrite !orb_true_iff, !AST_NODE_TYPES_eqb_eq.
  destruct e as [r raw v|r qs es|r n|k r]; simpl.
  - split; [by left|]. intros _. by do 4 left.
  - split; [by right; left|]. intros _. by do 3 left; right.
  - rewrite !String.eqb_eq. split.
    + intros H. do 2 right. exists r, n. split; [done|]. intuition congruence.
    + intros [|[|(r' & n' & Heq & Hn)]]; [done..|]. inversion Heq; subst.
      intuition.
  - split.
    + intros H. destruct k; simpl in H; intuition congruence.
    + intros [H|[H|(r' & n' & Heq & _)]]; [| |done]; by destruct k.
Qed.

(** Every edit of a report lies in the slot of the reported expression:
    from the [${] before it to the [}] after it. *)
Lemma fixGeneral_in_slot node i e prevQuasi nextQuasi edits f :
  wellFormed node = true →
  expressions node !! i = Some e →
  quasis node !! i = Some prevQuasi →
  quasis node !! S i = Some nextQuasi →
  fixGeneral node e = Some edits →
  f ∈ edits →
  qend prevQuasi - 2 ≤ (fix_range f).1
  ∧ (fix_range f).1 ≤ (fix_range f).2
  ∧ (fix_range f).2 ≤ qstart nextQuasi + 1.
Proof.
  intros Hok Hi Hq Hq' Hfix Hf.
  destruct (fixGeneral_at node i e Hok Hi) as (q & q' & Hq1 & Hq2 & Hfix').
  rewrite Hq in Hq1; rewrite Hq' in Hq2; inversion Hq1; inversion Hq2; subst q q'.
  rewrite Hfix in Hfix'. inversion Hfix'; subst edits. clear Hfix'.
  destruct (slotsOk_lookup _ _ _ _ Hok Hi) as (q & q' & Hq1' & Hq2' & Hb).
  rewrite Hq in Hq1'; rewrite Hq' in Hq2'; inversion Hq1'; inversion Hq2'; subst q q'.
  assert (1 ≤ minWidth e) by (destruct e; simpl; lia).
  unfold qstart, qend in *.
  simpl in Hf. rewrite !elem_of_cons in Hf.
  destruct Hf as [->|[->|Hf]]; simpl; [lia..|].
  destruct e; simpl in *;
    rewrite ?elem_of_cons, ?elem_of_nil in Hf;
    intuition (subst; simpl; lia).
Qed.

(** C5. In the general case an interpolated expression is fixable exactly
    when it is a [Literal], a [TemplateLiteral], or an [Identifier] named
    [undefined], [Infinity] or [NaN].  The reports are those of the fixable
    expressions; an expression that is not fixable is the node of no
    report, and no edit of any report touches its range. *)
Theorem only_fixable_expressions_are_reported
    (services : ParserServices) (node : TemplateLiteralNode) :
  parent_type node ≠ AST_NODE_TYPES.TaggedTemplateExpression →
  hasSingleStringVariable services node = false →
  wellFormed node = true →
  (∀ e, isFixable e = true
        ↔ type e = AST_NODE_TYPES.Literal
          ∨ type e = AST_NODE_TYPES.TemplateLiteral
          ∨ ∃ r name, e = Identifier r name
              ∧ (name = "undefined" ∨ name = "Infinity" ∨ name = "NaN"))
  ∧ report_node <$> TemplateLiteral_visitor services node
      = List.filter isFixable (expressions node)
  ∧ ∀ e, e ∈ expressions node → isFixable e = false →
      ∀ r, r ∈ TemplateLiteral_visitor services node →
        report_node r ≠ e
        ∧ ∀ edits f, fix_ r = Some edits → f ∈ edits →
            disjoint (fix_range f) (range e).
Proof.
  intros Hparent Hsingle Hok.
  split; [apply isFixable_iff|].
  rewrite (visitor_general _ _ Hparent Hsingle).
  split.
  { rewrite <- list_fmap_compose. unfold compose; simpl. apply list_fmap_id. }
  intros e He Hnot r Hr.
  apply list_elem_of_fmap in Hr as (e' & -> & He'). simpl.
  apply elem_of_fixableExpressions in He' as [He' Hfix'].
  split; [congruence|].
  intros edits f Hedits Hf.
  apply list_elem_of_lookup in He as [j Hj].
  apply list_elem_of_lookup in He' as [i Hi].
  assert (i ≠ j) by (intros ->; congruence).
  destruct (slotsOk_lookup _ _ _ _ Hok Hi) as (q & q' & Hq & Hq' & Hb).
  destruct (fixGeneral_in_slot node i e' q q' edits f Hok Hi Hq Hq' Hedits Hf)
    as (Hlo & _ & Hhi).
  unfold disjoint.
  destruct (decide (j < i)%nat).
  - right.
    pose proof (expression_before_quasi _ _ j i e q Hok ltac:(lia) Hj Hq).
    lia.
  - left.
    pose proof (quasi_before_expression _ _ (S i) j e q' Hok ltac:(lia) Hq' Hj).
    lia.
Qed.

Lemma only_fixable_expressions_are_reported_witness :
  hasSingleStringVariable TemplateSamples.services TemplateSamples.mixed = false
  ∧ wellFormed TemplateSamples.mixed = true
  ∧ isFixable (Identifier (4, 8) "name") = false
  ∧ report_node <$> TemplateLiteral_visitor TemplateSamples.services
                      TemplateSamples.mixed
    = [ Literal (12, 15) "'c'" (StringValue "c");
        TemplateLiteral (18, 21) [TemplateSamples.quasi 18 21 "d"] [];
        Identifier (24, 27) "NaN" ].
Proof.
  split; [reflexivity|]. split; [reflexivity|]. split; [reflexivity|].
  apply (only_fixable_expressions_are_reported TemplateSamples.services
           TemplateSamples.mixed); [discriminate | reflexivity | reflexivity].
Defined.

(** *** The order of the reports and of their edits *)

Lemma StronglySorted_lookup_2 {A} (R : A → A → Prop) (l : list A) :
  (∀ i j x y, (i < j)%nat → l !! i = Some x → l !! j = Some y → R x y) →
  StronglySorted R l.
Proof.
  induction l as [|x l IH]; intros H; constructor.
  - apply IH. intros i j y z Hij Hi Hj. apply (H (S i) (S j)); [lia|done..].
  - apply Forall_forall. intros y Hy.
    apply list_elem_of_lookup in Hy as [j Hj].
    apply (H 0%nat (S j)); [lia|done..].
Qed.

Lemma StronglySorted_filter {A} (R : A → A → Prop) (f : A → bool) (l : list A) :
  StronglySorted R l → StronglySorted R (List.filter f l).
Proof.
  induction 1 as [|x l Hl IH Hx]; simpl; [constructor|].
  destruct (f x); [|done]. constructor; [done|].
  apply Forall_forall. intros y Hy.
  apply list_elem_of_In, filter_In in Hy as [Hy _].
  rewrite Forall_forall in Hx. by apply Hx, list_elem_of_In.
Qed.

Lemma expressions_in_source_order qs es :
  slotsOk qs es = true → StronglySorted before es.
Proof.
  intros Hok. apply StronglySorted_lookup_2. intros i j e e' Hij Hi Hj.
  destruct (slotsOk_lookup _ _ _ _ Hok Hj) as (q & q' & Hq & _ & Hb).
  pose proof (expression_before_quasi _ _ i j e q Hok Hij Hi Hq).
  unfold before, qstart, qend in *. lia.
Qed.

(** Decides the order tests of the goal from the inequalities at hand. *)
Ltac order_tests :=
  repeat match goal with
         | |- context [?a <? ?b] => destruct (Z.ltb_spec a b); try lia
         | |- context [?a =? ?b] => destruct (Z.eqb_spec a b); try lia
         | |- context [?a <=? ?b] => destruct (Z.leb_spec a b); try lia
         end.

(** The host accepts the edits of the report of one slot: sorted by range,
    each starts where, or after, the one before it ends. *)
Lemma slot_edits_merge src q q' e :
  0 ≤ qstart q →
  qstart q + 3 ≤ qend q → qend q ≤ (range e).1 →
  (range e).1 + minWidth e ≤ (range e).2 →
  (range e).2 ≤ qstart q' → qstart q' + 2 ≤ qend q' →
  is_Some (mergeFixes src
    ([ removeRange (qend q - 2, (range e).1);
       removeRange ((range e).2, qstart q' + 1) ]
     ++ match e with
        | Literal _ raw value => [ replaceText e (escapedValue raw value) ]
        | TemplateLiteral r _ _ =>
            [ removeRange (r.1, r.1 + 1); removeRange (r.2 - 1, r.2) ]
        | _ => []
        end)).
Proof.
  intros H0 H1 H2 H3 H4 H5.
  unfold qstart, qend in *.
  assert (1 ≤ minWidth e) by (destruct e; simpl; lia).
  unfold mergeFixes, sortFixes, MIN_SAFE_INTEGER.
  destruct e as [r raw v|r qs es|r n|k r]; simpl in *;
    repeat (progress (unfold fix_leb, mbind, option_bind; simpl; order_tests));
    eauto.
Qed.

(** C4 (as the code has it). When a template literal is not the
    single-interpolation case, the visitor sends one report per fixable
    expression, that is, the reported nodes are the expressions of the
    template that pass the filter, each once and in the order of the
    template, leftmost first: the expression of each report ends before
    those of the later reports start.  The fix of every report is a list of
    edits over well-formed ranges that are pairwise disjoint, and the host,
    which rejects overlapping edits, accepts them. *)
Theorem reports_in_source_order_with_disjoint_edits
    (services : ParserServices) (node : TemplateLiteralNode) :
  parent_type node ≠ AST_NODE_TYPES.TaggedTemplateExpression →
  hasSingleStringVariable services node = false →
  wellFormed node = true →
  report_node <$> TemplateLiteral_visitor services node
    = List.filter isFixable (expressions node)
  ∧ StronglySorted before (report_node <$> TemplateLiteral_visitor services node)
  ∧ Forall (λ r, ∃ edits,
              fix_ r = Some edits
              ∧ Forall (λ f, (fix_range f).1 ≤ (fix_range f).2) edits
              ∧ pairwiseDisjoint (fix_range <$> edits)
              ∧ ∀ src, is_Some (applyFixes src edits))
      (TemplateLiteral_visitor services node).
Proof.
  intros Hparent Hsingle Hok.
  rewrite (visitor_general _ _ Hparent Hsingle).
  assert (Hnodes :
    report_node <$>
      ((λ expression,
          {| report_node := expression;
             messageId := noUselessTemplateLiteral;
             fix_ := fixGeneral node expression |}) <$> fixableExpressions node)
    = fixableExpressions node).
  { rewrite <- list_fmap_compose. unfold compose; simpl. apply list_fmap_id. }
  split; [exact Hnodes|]. split.
  { rewrite Hnodes. apply StronglySorted_filter.
    by apply (expressions_in_source_order (quasis node)). }
  apply Forall_forall. intros r Hr.
  apply list_elem_of_fmap in Hr as (e & -> & He). simpl.
  apply elem_of_fixableExpressions in He as [He _].
  apply list_elem_of_lookup in He as [i Hi].
  destruct (fixGeneral_at node i e Hok Hi) as (q & q' & Hq & Hq' & Hfix).
  destruct (slotsOk_lookup _ _ _ _ Hok Hi) as (q1 & q2 & Hq1 & Hq2 & Hb).
  rewrite Hq in Hq1; rewrite Hq' in Hq2; inversion Hq1; inversion Hq2; subst q1 q2.
  eexists. split; [exact Hfix|].
  assert (Hmerge : ∀ src, is_Some (applyFixes src
            ([ removeRange (qend q - 2, (range e).1);
               removeRange ((range e).2, qstart q' + 1) ]
             ++ match e with
                | Literal _ raw value =>
                    [ replaceText e (escapedValue raw value) ]
                | TemplateLiteral r _ _ =>
                    [ removeRange (r.1, r.1 + 1); removeRange (r.2 - 1, r.2) ]
                | _ => []
                end))).
  { intros src. unfold applyFixes. apply fmap_is_Some.
    apply slot_edits_merge; tauto. }
  split; [|split; [|exact Hmerge]]; clear Hmerge;
    unfold qstart, qend in *;
    destruct e as [r raw v|r qs es|r n|k r]; simpl in *;
    unfold disjoint; simpl; repeat constructor; simpl; lia.
Qed.

Lemma reports_in_source_order_with_disjoint_edits_witness :
  hasSingleStringVariable TemplateSamples.services TemplateSamples.mixed = false
  ∧ wellFormed TemplateSamples.mixed = true
  ∧ report_node <$> TemplateLiteral_visitor TemplateSamples.services
                      TemplateSamples.mixed
    = [ Literal (12, 15) "'c'" (StringValue "c");
        TemplateLiteral (18, 21) [TemplateSamples.quasi 18 21 "d"] [];
        Identifier (24, 27) "NaN" ]
  ∧ Forall (λ r, ∃ edits,
              fix_ r = Some edits
              ∧ Forall (λ f, (fix_range f).1 ≤ (fix_range f).2) edits
              ∧ pairwiseDisjoint (fix_range <$> edits)
              ∧ ∀ src, is_Some (applyFixes src edits))
      (TemplateLiteral_visitor TemplateSamples.services TemplateSamples.mixed).
Proof.
  split; [reflexivity|]. split; [reflexivity|].
  destruct (reports_in_source_order_with_disjoint_edits
              TemplateSamples.services TemplateSamples.mixed)
    as (Hnodes & _ & Hedits); [discriminate | reflexivity | reflexivity |].
  split; [exact Hnodes | exact Hedits].
Defined.

(** The fixable slots of [`${1}-${2}`] are reported leftmost first, not in
    reverse source order. *)
Lemma fixable_slots_not_in_reverse_order :
  wellFormed TemplateSamples.twoLiterals = true
  ∧ hasSingleStringVariable TemplateSamples.services TemplateSamples.twoLiterals
    = false
  ∧ report_node <$> TemplateLiteral_visitor TemplateSamples.services
                      TemplateSamples.twoLiterals
    = [ Literal (3, 4) "1" (NumberValue "1");
        Literal (8, 9) "2" (NumberValue "2") ]
  ∧ report_node <$> TemplateLiteral_visitor TemplateSamples.services
                      TemplateSamples.twoLiterals
    ≠ reverse (List.filter isFixable (expressions TemplateSamples.twoLiterals)).
Proof. repeat split; discriminate. Qed.

(** *** Slices of the source text *)

Lemma append_empty_r (s : string) : (s ++ "")%string = s.
Proof.
  induction s as [|c s IH]; [done|].
  change (String c (s ++ "")%string = String c s). by f_equal.
Qed.

Lemma append_empty_l (s : string) : ("" ++ s)%string = s.
Proof. reflexivity. Qed.

Lemma chars_str l : JS.chars (JS.str l) = l.
Proof. apply list_ascii_of_string_of_list_ascii. Qed.

Lemma str_chars s : JS.str (JS.chars s) = s.
Proof. apply string_of_list_ascii_of_string. Qed.

Lemma slice_same s a : JS.slice s a a = "".
Proof.
  unfold JS.slice, JS.sliceChars. by rewrite Z.sub_diag.
Qed.

Lemma relIndex_inside len i : 0 ≤ i ≤ len → JS.relIndex len i = i.
Proof.
  intros H. unfold JS.relIndex. destruct (Z.ltb_spec i 0); lia.
Qed.

Lemma length_slice s a b :
  0 ≤ a → a ≤ b → b ≤ JS.length s → JS.length (JS.slice s a b) = b - a.
Proof.
  intros Ha Hab Hb. unfold JS.length in *. unfold JS.slice, JS.sliceChars.
  rewrite chars_str, !relIndex_inside by lia.
  rewrite length_take, length_drop. lia.
Qed.

(** The composed edit of two edits that come one after the other. *)
Lemma mergeFixes_two src (a b : RuleFix) :
  0 ≤ (fix_range a).1 → (fix_range a).1 ≤ (fix_range a).2 →
  (fix_range a).2 ≤ (fix_range b).1 → (fix_range b).1 ≤ (fix_range b).2 →
  (fix_range a).1 < (fix_range b).1 →
  mergeFixes src [a; b] =
    Some {| fix_range := ((fix_range a).1, (fix_range b).2);
            fix_text :=
              ((fix_text a ++ JS.slice src (fix_range a).2 (fix_range b).1)
                 ++ fix_text b)%string |}.
Proof.
  intros H0 Ha Hab Hb Hlt.
  unfold mergeFixes, sortFixes. simpl foldr. unfold fix_leb.
  rewrite (proj2 (Z.ltb_lt _ _) Hlt). simpl.
  unfold MIN_SAFE_INTEGER.
  destruct (Z.ltb_spec (fix_range a).1 (- (2 ^ 53 - 1))); [lia|].
  destruct (Z.leb_spec 0 (fix_range a).1); [|lia].
  destruct (Z.ltb_spec (fix_range b).1 (fix_range a).2); [lia|].
  destruct (Z.leb_spec 0 (fix_range b).1); [|lia].
  unfold mbind, option_bind. simpl.
  replace (Z.max 0 (Z.max (fix_range a).1 (- (2 ^ 53 - 1)))) with (fix_range a).1 by lia.
  replace (Z.max 0 (Z.max (fix_range a).1 (fix_range a).2)) with (fix_range a).2 by lia.
  replace (Z.max 0 (Z.max (fix_range a).1 (fix_range b).2)) with (fix_range b).2 by lia.
  rewrite !slice_same, ?append_empty_l, ?append_empty_r.
  done.
Qed.

(** C2. For a template literal that is not the template of a tagged
    template expression, with exactly two quasis whose raw text is empty and
    exactly one expression whose type is string-like, the visitor sends
    exactly one report, for that expression, whose fix is exactly two
    removals.  In a source text the tree agrees with, the first removal runs
    from the start of the template, where the backtick and [${] are, to the
    expression, the second from the end of the expression through the [}]
    and the backtick to the end of the template; applied to the source, they
    leave the text of the expression in place of the template. *)
Theorem single_string_interpolation_is_unwrapped
    (services : ParserServices) (node : TemplateLiteralNode) (src : string)
    (q0 q1 : TemplateElement) (e0 : Expression) :
  parent_type node ≠ AST_NODE_TYPES.TaggedTemplateExpression →
  quasis node = [q0; q1] →
  quasi_raw q0 = "" →
  quasi_raw q1 = "" →
  expressions node = [e0] →
  isUnderlyingTypeString services e0 = true →
  matchesSource src node = true →
  ∃ edits,
    TemplateLiteral_visitor services node
      = [ {| report_node := e0;
             messageId := noUselessTemplateLiteral;
             fix_ := Some edits |} ]
    ∧ edits = [ removeRange ((quasi_range q0).2 - 3, (range e0).1);
                removeRange ((range e0).2, (quasi_range q1).1 + 2) ]
    ∧ edits = [ removeRange ((node_range node).1, (range e0).1);
                removeRange ((range e0).2, (node_range node).2) ]
    ∧ JS.slice src (node_range node).1 (quasi_range q0).2 = "`${"
    ∧ JS.slice src (quasi_range q1).1 (node_range node).2 = "}`"
    ∧ applyFixes src edits
      = Some (JS.slice src 0 (node_range node).1
                ++ JS.slice src (range e0).1 (range e0).2
                ++ JS.sliceFrom src (node_range node).2)%string.
Proof.
  intros Hparent Hqs Hraw0 Hraw1 Hes Hstr Hsrc.
  eexists. split.
  { unfold TemplateLiteral_visitor, hasSingleStringVariable, fixSingle.
    destruct (AST_NODE_TYPES.eqb _ _) eqn:Heq;
      [by apply AST_NODE_TYPES_eqb_eq in Heq|].
    rewrite Hqs, Hes. simpl. rewrite Hraw0, Hraw1, Hstr. simpl. reflexivity. }
  split; [reflexivity|].
  unfold matchesSource, wellFormed in Hsrc. rewrite Hqs, Hes in Hsrc.
  simpl in Hsrc. unfold quasiMatches, quasiText in Hsrc.
  rewrite Hraw0, Hraw1 in Hsrc. simpl in Hsrc.
  bool_hyps.
  assert (Hw0 : (quasi_range q0).2 - (quasi_range q0).1 = 3).
  { rewrite <- (length_slice src) by lia.
    match goal with H : JS.slice src _ (quasi_range q0).2 = _ |- _ => by rewrite H end. }
  assert (Hw1 : (quasi_range q1).2 - (quasi_range q1).1 = 2).
  { rewrite <- (length_slice src) by lia.
    match goal with H : JS.slice src _ (quasi_range q1).2 = _ |- _ => by rewrite H end. }
  assert (Hnode : node_range node = ((quasi_range q0).1, (quasi_range q1).2)) by done.
  rewrite Hnode. simpl.
  assert (1 ≤ minWidth e0) by (destruct e0; simpl; lia).
  split; [repeat f_equal; lia|].
  split; [done|]. split; [done|].
  unfold applyFixes. rewrite mergeFixes_two; simpl; try lia.
  unfold applyFix; simpl.
  replace ((quasi_range q0).2 - 3) with (quasi_range q0).1 by lia.
  replace ((quasi_range q1).1 + 2) with (quasi_range q1).2 by lia.
  by rewrite append_empty_l, append_empty_r.
Qed.

Lemma single_string_interpolation_is_unwrapped_witness :
  matchesSource TemplateSamples.singleSrc TemplateSamples.single = true
  ∧ isUnderlyingTypeString TemplateSamples.services (Identifier (3, 7) "name")
    = true
  ∧ ∃ edits,
      TemplateLiteral_visitor TemplateSamples.services TemplateSamples.single
        = [ {| report_node := Identifier (3, 7) "name";
               messageId := noUselessTemplateLiteral;
               fix_ := Some edits |} ]
      ∧ applyFixes TemplateSamples.singleSrc edits = Some "name".
Proof.
  split; [reflexivity|]. split; [reflexivity|].
  destruct (single_string_interpolation_is_unwrapped TemplateSamples.services
              TemplateSamples.single TemplateSamples.singleSrc
              (TemplateSamples.quasi 0 3 "") (TemplateSamples.quasi 7 9 "")
              (Identifier (3, 7) "name"))
    as (edits & Hv & _ & _ & _ & _ & Happly);
    [discriminate | reflexivity..|].
  exists edits. split; [exact Hv | exact Happly].
Defined.

(** *** Escaping of inlined literals *)

Lemma inClass_cons cls a c :
  JS.inClass (a :: cls) c = Ascii.eqb c a || JS.inClass cls c.
Proof.
  unfold JS.inClass. destruct (Ascii.eqb_spec c a) as [->|Hne]; simpl.
  - apply bool_decide_eq_true. left.
  - apply bool_decide_ext. rewrite elem_of_cons. tauto.
Qed.

Lemma inClass_app cls cls' c :
  JS.inClass (cls ++ cls') c = JS.inClass cls c || JS.inClass cls' c.
Proof.
  induction cls as [|a cls IH]; simpl.
  - reflexivity.
  - by rewrite !inClass_cons, IH, orb_assoc.
Qed.

Lemma inClass_special_backslash c :
  Escaping.isBackslash c = true → JS.inClass Escaping.special c = false.
Proof.
  unfold Escaping.isBackslash. intros ->%Ascii.eqb_eq. reflexivity.
Qed.

Lemma replaceClassChars_flat_map cls l :
  JS.replaceClassChars cls l = flat_map (Escaping.prefixed cls) l.
Proof.
  induction l as [|c l IH]; simpl; [done|].
  unfold Escaping.prefixed at 1. destruct (JS.inClass cls c); simpl; by rewrite IH.
Qed.

(** Escaping the backticks and dollars of a text in which none is escaped
    yet leaves none unescaped. *)
Lemma escapedOnly_replace_special escaped l :
  Escaping.unescapedOnlyFrom escaped l = true →
  Escaping.escapedOnlyFrom escaped
    (JS.replaceClassChars Escaping.special l) = true.
Proof.
  revert escaped. induction l as [|c l IH]; intros escaped H; [done|].
  simpl in H. destruct escaped.
  - apply andb_true_iff in H as [Hc H]. apply negb_true_iff in Hc.
    simpl. rewrite Hc. simpl. by apply IH.
  - simpl. destruct (Escaping.isBackslash c) eqn:Hbs.
    + rewrite (inClass_special_backslash _ Hbs). simpl. rewrite Hbs. by apply IH.
    + destruct (JS.inClass Escaping.special c) eqn:Hc; simpl.
      * by apply IH.
      * rewrite Hbs, Hc. simpl. by apply IH.
Qed.

(** Escaping the backticks, dollars and backslashes of any text leaves no
    backtick or dollar unescaped. *)
Lemma escapedOnly_replace_all l :
  Escaping.escapedOnlyFrom false
    (JS.replaceClassChars (Escaping.special ++ [JS.backslash]) l) = true.
Proof.
  set (cls := Escaping.special ++ [JS.backslash]).
  assert (Hcls : ∀ c, JS.inClass cls c
                      = JS.inClass Escaping.special c || Escaping.isBackslash c).
  { intros c. unfold cls. rewrite inClass_app, inClass_cons.
    replace (JS.inClass [] c) with false by done. by rewrite orb_false_r. }
  induction l as [|c l IH]; [done|].
  simpl. rewrite Hcls.
  destruct (JS.inClass Escaping.special c) eqn:Hc; simpl; [done|].
  destruct (Escaping.isBackslash c) eqn:Hbs; simpl; [done|].
  by rewrite Hbs, Hc.
Qed.

(** C6 (as the code has it). Take a literal that is not a string, or a
    string literal in whose raw text no backtick or [$] is escaped already,
    that is, follows an odd number of backslashes.  The text inlined for it
    is made from a base text, the raw text without its quotes for a string
    literal and [String(value)] for any other literal, by putting a
    backslash before every backtick and every [$], whether or not a brace
    follows, and for a literal that is not a string before every backslash
    too; and the result has no unescaped backtick or [$]. *)
Theorem escapedValue_escapes_every_backtick_and_dollar
    (raw : string) (value : LiteralValue) :
  (if Escaping.isStringValue value
   then Escaping.noneEscaped (Escaping.escapeBase raw value)
   else true) = true →
  JS.chars (escapedValue raw value)
    = flat_map (Escaping.prefixed (Escaping.escapeClass value))
        (JS.chars (Escaping.escapeBase raw value))
  ∧ Escaping.templateSafe (escapedValue raw value) = true.
Proof.
  intros H. unfold Escaping.templateSafe.
  assert (Hchars : JS.chars (escapedValue raw value)
            = JS.replaceClassChars (Escaping.escapeClass value)
                (JS.chars (Escaping.escapeBase raw value))).
  { destruct value; apply chars_str. }
  rewrite Hchars. split; [apply replaceClassChars_flat_map|].
  destruct value;
    first [ by apply escapedOnly_replace_special
          | apply escapedOnly_replace_all ].
Qed.

Lemma escapedValue_escapes_every_backtick_and_dollar_witness :
  Escaping.noneEscaped (JS.slice "'a\\$b`c'" 1 (-1)) = true
  ∧ escapedValue "'a\\$b`c'" (StringValue "a\$b`c") = "a\\\$b\`c"
  ∧ Escaping.templateSafe (escapedValue "'a\\$b`c'" (StringValue "a\$b`c"))
    = true.
Proof.
  split; [reflexivity|]. split; [reflexivity|].
  apply (escapedValue_escapes_every_backtick_and_dollar "'a\\$b`c'"
           (StringValue "a\$b`c")).
  reflexivity.
Defined.

(** The text inlined for the string literal ['$5'] has a backslash before
    the [$], which no brace follows: the code does not escape exactly the
    unescaped backticks and [${] sequences. *)
Lemma escapedValue_escapes_a_lone_dollar :
  escapedValue "'$5'" (StringValue "$5") = "\$5"
  ∧ Escaping.specEscape (JS.slice "'$5'" 1 (-1)) = "$5"
  ∧ escapedValue "'$5'" (StringValue "$5")
    ≠ Escaping.specEscape (JS.slice "'$5'" 1 (-1)).
Proof. repeat split; discriminate. Qed.

(** A string literal whose raw text has an escaped backtick: the backslash
    put before the backtick pairs with the one that was there, and the
    backtick of the result is not escaped. *)
Example escapedValue_of_escaped_backtick :
  escapedValue "'\`'" (StringValue "`") = "\\`"
  ∧ Escaping.noneEscaped (JS.slice "'\`'" 1 (-1)) = false
  ∧ Escaping.templateSafe (escapedValue "'\`'" (StringValue "`")) = false.
Proof. repeat split. Qed.

(** *** Running the rule again on fixed text *)

(** C9 (a failing input). In [`$${'{1}'}`] the quasi ends in [$] and the
    string literal starts with an opening brace.  The rule reports the
    literal; its fix, applied to the source, gives [`${1}`], where the [$]
    of the quasi and the brace of the literal have become an interpolation;
    on the tree of that text the rule sends a report again, whatever the
    types. *)
Theorem fix_of_dollar_before_brace_is_reported_again
    (services services' : ParserServices) :
  matchesSource TemplateSamples.dollarBraceSrc TemplateSamples.dollarBrace = true
  ∧ (∃ edits,
       TemplateLiteral_visitor services TemplateSamples.dollarBrace
         = [ {| report_node := Literal (4, 9) "'{1}'" (StringValue "{1}");
                messageId := noUselessTemplateLiteral;
                fix_ := Some edits |} ]
       ∧ applyFixes TemplateSamples.dollarBraceSrc edits
         = Some TemplateSamples.oneLiteralSrc)
  ∧ matchesSource TemplateSamples.oneLiteralSrc TemplateSamples.oneLiteral = true
  ∧ report_node <$> TemplateLiteral_visitor services' TemplateSamples.oneLiteral
    = [ Literal (3, 4) "1" (NumberValue "1") ].
Proof.
  split; [reflexivity|]. split; [eexists; split; reflexivity|].
  split; [reflexivity|].
  unfold TemplateLiteral_visitor. simpl.
  by destruct (hasSingleStringVariable services' TemplateSamples.oneLiteral).
Qed.

End TemplateLiteralProps.

(* ===================================================================== *)
(** ** Properties of [explicit-function-return-type] *)
(* ===================================================================== *)

Module ReturnTypeProps.
Import ExplicitFunctionReturnType.

Section Facts.
Variable isValidFunctionExpressionReturnType : FunctionNode → Options → bool.
Variable ancestorHasReturnType : FunctionNode → bool.
Variable isValidFunctionReturnType : FunctionInfo → Options → bool.
Variable getFunctionHeadLoc : FunctionNode → SourceLocation.

Local Abbreviation dispatch' := (dispatch isValidFunctionExpressionReturnType
  ancestorHasReturnType isValidFunctionReturnType getFunctionHeadLoc).
Local Abbreviation run' := (run isValidFunctionExpressionReturnType
  ancestorHasReturnType isValidFunctionReturnType getFunctionHeadLoc).
Local Abbreviation exitFunctionExpression' :=
  (exitFunctionExpression isValidFunctionExpressionReturnType
     ancestorHasReturnType isValidFunctionReturnType getFunctionHeadLoc).

Lemma popFunctionInfo_last exitNodeType stack :
  popFunctionInfo exitNodeType stack =
    match last stack with
    | Some info => Ok (info, removelast stack)
    | None => Throw ("Stack should exist on " ++ exitNodeType ++ " exit")
    end.
Proof. unfold popFunctionInfo, pop. by destruct (last stack). Qed.

Lemma popFunctionInfo_snoc exitNodeType stack info :
  popFunctionInfo exitNodeType (stack ++ [info]) = Ok (info, stack).
Proof.
  rewrite popFunctionInfo_last.
  by rewrite last_snoc, removelast_last.
Qed.

Lemma dispatch_exit_empty options node :
  dispatch' options (Exit node) [] = Throw (exitMessage node).
Proof. by destruct node as [[] ? ? ? ? ? ? ?]. Qed.

Lemma run_app options events events' stack :
  run' options (events ++ events') stack =
    '(reports, stack') ← run' options events stack;
    '(reports', stack'') ← run' options events' stack';
    Ok (reports ++ reports', stack'').
Proof.
  revert stack. induction events as [|ev events IH]; intros stack; simpl.
  - unfold mbind, result_bind; simpl.
    by destruct (run' options events' stack) as [[? ?]|].
  - unfold mbind, result_bind in *.
    destruct (dispatch' options ev stack) as [[reports stack']|]; simpl; [|done].
    rewrite IH.
    destruct (run' options events stack') as [[r1 s1]|]; simpl; [|done].
    destruct (run' options events' s1) as [[r2 s2]|]; simpl; [|done].
    by rewrite app_assoc.
Qed.

(** C7. Every function exit event pops the stack through the
    null-checked [popFunctionInfo]: the pop yields the last frame when
    there is one and throws otherwise.  So when the events seen so far
    have left the stack empty, an exit event of any of the three function
    kinds throws, and so does the whole traversal, whatever events
    follow: an underflow never lets the analysis go on. *)
Theorem exit_on_empty_stack_throws options before reports stack0 node after :
  run' options before stack0 = Ok (reports, []) →
  (∀ exitNodeType stack,
     popFunctionInfo exitNodeType stack =
       match last stack with
       | Some info => Ok (info, removelast stack)
       | None => Throw ("Stack should exist on " ++ exitNodeType ++ " exit")
       end)
  ∧ dispatch' options (Exit node) [] = Throw (exitMessage node)
  ∧ run' options (before ++ Exit node :: after) stack0
      = Throw (exitMessage node).
Proof.
  intros Hbefore. split; [apply popFunctionInfo_last|].
  split; [apply dispatch_exit_empty|].
  rewrite run_app, Hbefore. unfold mbind, result_bind. cbn [bind run].
  by rewrite dispatch_exit_empty.
Qed.

(** C10. A [ReturnStatement] event on an empty stack is ignored: the
    handler does not throw, records nothing and leaves the stack empty,
    and the traversal goes on as if the event had not been there; a
    function exit on the empty stack throws. *)
Theorem return_on_empty_stack_is_ignored options ret node events :
  ReturnStatement ret [] = []
  ∧ dispatch' options (Return ret) [] = Ok ([], [])
  ∧ run' options (Return ret :: events) [] = run' options events []
  ∧ dispatch' options (Exit node) [] = Throw (exitMessage node).
Proof.
  repeat split; [|apply dispatch_exit_empty].
  cbn. unfold mbind, result_bind; simpl.
  by destruct (run' options events []) as [[? ?]|].
Qed.

(** C8. The rule's IIFE test holds of a function exactly when its parent is
    a [CallExpression].  For an arrow function or function expression of
    which it holds, the exit handler sends no report when [allowIIFEs] is
    enabled; with [allowIIFEs] disabled and no other exemption applying, it
    sends exactly one report, for that function, at the function's head
    location. *)
Theorem allowIIFEs_exempts_immediately_invoked
    options node info stack :
  type node ≠ FunctionDeclaration →
  ExplicitFunctionReturnType.node info = node →
  isIIFE node = true →
  isVoidArrow (withAllowIIFEs false options) node = false →
  isAllowedFunction (withAllowIIFEs false options) node = false →
  allowTypedFunctionExpressions options
    && (isValidFunctionExpressionReturnType node (withAllowIIFEs false options)
        || ancestorHasReturnType node) = false →
  isValidFunctionReturnType info (withAllowIIFEs false options) = false →
  (∀ n, isIIFE n = true
        ↔ parentType (parent n) = AST_NODE_TYPES.CallExpression)
  ∧ dispatch' (withAllowIIFEs true options) (Exit node) (stack ++ [info])
      = Ok ([], stack)
  ∧ dispatch' (withAllowIIFEs false options) (Exit node) (stack ++ [info])
      = Ok ([ {| report_node := node;
                 report_loc := getFunctionHeadLoc node;
                 report_messageId := missingReturnType |} ], stack).
Proof.
  intros Hty Hinfo Hiife Hvoid Hallowed Htyped Hvalid.
  split.
  { intros n. unfold isIIFE.
    destruct (parentType (parent n)); simpl; split; congruence. }
  assert (Hd : ∀ o s, dispatch' o (Exit node) s = exitFunctionExpression' o node s).
  { intros o s. simpl. by destruct (type node). }
  rewrite !Hd. unfold exitFunctionExpression.
  rewrite !popFunctionInfo_snoc. unfold mbind, result_bind; cbn [bind].
  split.
  - destruct (isVoidArrow _ node); [done|].
    unfold isAllowedFunction. cbn [withAllowIIFEs allowIIFEs
      allowFunctionsWithoutTypeParameters].
    rewrite Hiife.
    by destruct (_ && negb _).
  - rewrite Hvoid, Hallowed.
    cbn [withAllowIIFEs allowTypedFunctionExpressions] in *.
    rewrite Htyped. unfold checkFunctionReturnType.
    by rewrite Hvalid, Hinfo.
Qed.

End Facts.

Import ReturnTypeSamples.

Lemma exit_on_empty_stack_throws_witness :
  run (λ _ _, false) (λ _, false) (λ _ _, false) headLoc noOptions
      [Enter declaration; Exit declaration] []
    = Ok ([missing declaration (headLoc declaration)], [])
  ∧ run (λ _ _, false) (λ _, false) (λ _ _, false) headLoc noOptions
      ([Enter declaration; Exit declaration] ++ Exit iifeArrow :: [Enter iifeArrow]) []
    = Throw "Stack should exist on function expression exit".
Proof.
  split; [reflexivity|].
  apply (exit_on_empty_stack_throws (λ _ _, false) (λ _, false) (λ _ _, false)
           headLoc noOptions [Enter declaration; Exit declaration]
           [missing declaration (headLoc declaration)] [] iifeArrow
           [Enter iifeArrow]).
  reflexivity.
Defined.

Lemma allowIIFEs_exempts_immediately_invoked_witness :
  dispatch (λ _ _, false) (λ _, false) (λ _ _, false) headLoc
      (withAllowIIFEs true noOptions) (Exit iifeArrow) [iifeArrowInfo]
    = Ok ([], [])
  ∧ dispatch (λ _ _, false) (λ _, false) (λ _ _, false) headLoc
      (withAllowIIFEs false noOptions) (Exit iifeArrow) [iifeArrowInfo]
    = Ok ([missing iifeArrow (headLoc iifeArrow)], []).
Proof.
  apply (allowIIFEs_exempts_immediately_invoked (λ _ _, false) (λ _, false)
           (λ _ _, false) headLoc noOptions iifeArrow iifeArrowInfo []);
    solve [reflexivity | discriminate].
Defined.

End ReturnTypeProps.

(* ===================================================================== *)
(** ** Further properties of [explicit-function-return-type] *)
(* ===================================================================== *)

Module TraversalProps.
Import ExplicitFunctionReturnType Traversal.

Section Facts.
Variable isValidFunctionExpressionReturnType : FunctionNode → Options → bool.
Variable ancestorHasReturnType : FunctionNode → bool.
Variable isValidFunctionReturnType : FunctionInfo → Options → bool.
Variable getFunctionHeadLoc : FunctionNode → SourceLocation.
Variable options : Options.

Local Abbreviation dispatch' := (dispatch isValidFunctionExpressionReturnType
  ancestorHasReturnType isValidFunctionReturnType getFunctionHeadLoc options).
Local Abbreviation run' := (run isValidFunctionExpressionReturnType
  ancestorHasReturnType isValidFunctionReturnType getFunctionHeadLoc options).

Lemma ReturnStatement_snoc ret stack info :
  ReturnStatement ret (stack ++ [info]) = stack ++ [withReturns info [ret]].
Proof.
  unfold ReturnStatement. by rewrite last_snoc, removelast_last.
Qed.

(** An exit pops the last frame, whatever the node and the options, and
    decides on that frame alone. *)
Lemma dispatch_exit_snoc n stack info :
  ∃ reports,
    dispatch' (Exit n) [info] = Ok (reports, [])
    ∧ dispatch' (Exit n) (stack ++ [info]) = Ok (reports, stack).
Proof.
  pose proof (ReturnTypeProps.popFunctionInfo_snoc) as Hpop.
  assert (Hone : ∀ t, popFunctionInfo t [info] = Ok (info, [])) by done.
  unfold dispatch, exitFunctionExpression, exitFunctionDeclaration.
  destruct (type n); rewrite !Hpop, !Hone; unfold mbind, result_bind; cbn [bind];
    repeat match goal with
           | |- context [if ?b then _ else _] => destruct b
           end; eauto.
Qed.

Lemma withReturns_nil info : withReturns info [] = info.
Proof. destruct info. unfold withReturns; simpl. by rewrite app_nil_r. Qed.

Lemma withReturns_app info l l' :
  withReturns (withReturns info l) l' = withReturns info (l ++ l').
Proof. unfold withReturns; simpl. by rewrite app_assoc. Qed.

Lemma ownReturns_skip inner rest depth :
  balanced inner →
  ownReturns (S depth) (inner ++ rest) = ownReturns (S depth) rest.
Proof.
  intros H. revert depth rest.
  induction H as [|ret events _ IH|n inner events _ IHin _ IHev];
    intros depth rest; simpl; [done|apply IH|].
  rewrite <- app_assoc. simpl. rewrite IHin. simpl. apply IHev.
Qed.

Lemma ownReturns_app events events' :
  balanced events →
  ownReturns 0 (events ++ events') = ownReturns 0 events ++ ownReturns 0 events'.
Proof.
  induction 1 as [|ret events _ IH|n inner events Hin _ _ IHev]; simpl;
    [done|by rewrite IH|].
  rewrite <- !app_assoc. simpl.
  rewrite !(ownReturns_skip inner) by done. simpl. apply IHev.
Qed.

(** The walk of one function from a stack with a top frame: the frames are
    as before, and the exit decides on the function's node and own return
    statements. *)
Lemma function_walk n inner stack :
  (∀ stack info, ∃ reports,
     run' inner (stack ++ [info])
       = Ok (reports, stack ++ [withReturns info (ownReturns 0 inner)])) →
  ∃ innerReports exitReports,
    run' inner (stack ++ [ {| node := n; returns := [] |} ])
      = Ok (innerReports,
            stack ++ [ {| node := n; returns := ownReturns 0 inner |} ])
    ∧ dispatch' (Exit n) [ {| node := n; returns := ownReturns 0 inner |} ]
      = Ok (exitReports, [])
    ∧ run' (Enter n :: inner ++ [Exit n]) stack
      = Ok (innerReports ++ exitReports, stack).
Proof.
  intros IHin.
  destruct (IHin stack {| node := n; returns := [] |}) as [r1 Hr1].
  change (withReturns {| node := n; returns := [] |} (ownReturns 0 inner))
    with {| node := n; returns := ownReturns 0 inner |} in Hr1.
  destruct (dispatch_exit_snoc n stack
              {| node := n; returns := ownReturns 0 inner |})
    as (r2 & Hone & Hexit).
  exists r1, r2. split; [done|]. split; [done|].
  change (Enter n :: inner ++ [Exit n]) with ([Enter n] ++ inner ++ [Exit n]).
  rewrite ReturnTypeProps.run_app. cbn [run].
  unfold mbind, result_bind; cbn [bind dispatch]. unfold enterFunction.
  rewrite ReturnTypeProps.run_app. unfold mbind, result_bind.
  rewrite Hr1. cbn [run bind]. unfold mbind, result_bind. rewrite Hexit.
  cbn [bind]. simpl. by rewrite app_nil_r.
Qed.

Lemma balanced_run_top events :
  balanced events →
  ∀ stack info, ∃ reports,
    run' events (stack ++ [info])
      = Ok (reports, stack ++ [withReturns info (ownReturns 0 events)]).
Proof.
  induction 1 as [|ret events _ IH|n inner events Hin IHin _ IHev];
    intros stack info.
  - eexists. simpl. by rewrite withReturns_nil.
  - simpl. unfold mbind, result_bind; cbn [bind].
    rewrite ReturnStatement_snoc.
    destruct (IH stack (withReturns info [ret])) as [reports ->].
    eexists. cbn [bind]. by rewrite withReturns_app.
  - assert (Hsplit : Enter n :: inner ++ Exit n :: events
                     = (Enter n :: inner ++ [Exit n]) ++ events).
    { simpl. f_equal. rewrite <- (app_assoc inner [Exit n] events). reflexivity. }
    assert (Hown : ownReturns 0 (Enter n :: inner ++ Exit n :: events)
                   = ownReturns 0 events).
    { simpl. by rewrite ownReturns_skip by done. }
    rewrite Hown, Hsplit, ReturnTypeProps.run_app.
    destruct (function_walk n inner (stack ++ [info]) IHin)
      as (r1 & r2 & _ & _ & ->).
    unfold mbind, result_bind; cbn [bind].
    destruct (IHev stack info) as [r3 ->]. cbn [bind]. eauto.
Qed.

Lemma balanced_run_empty events :
  balanced events → ∃ reports, run' events [] = Ok (reports, []).
Proof.
  induction 1 as [|ret events _ [reports IH]|n inner events Hin _ _ [r3 IHev]].
  - by eexists.
  - exists reports. simpl. unfold mbind, result_bind; cbn [bind].
    unfold ReturnStatement; simpl. by rewrite IH.
  - assert (Hsplit : Enter n :: inner ++ Exit n :: events
                     = (Enter n :: inner ++ [Exit n]) ++ events).
    { simpl. f_equal. rewrite <- (app_assoc inner [Exit n] events). reflexivity. }
    rewrite Hsplit, ReturnTypeProps.run_app.
    destruct (function_walk n inner [] (balanced_run_top inner Hin))
      as (r1 & r2 & _ & _ & ->).
    unfold mbind, result_bind; cbn [bind]. rewrite IHev. cbn [bind]. eauto.
Qed.

(** X1. A balanced sequence of events never throws; it leaves every frame
    below the top untouched, and adds to the top frame exactly the return
    statements that are not inside a function entered on the way.  On the
    empty stack it leaves the stack empty. *)
Theorem balanced_run_keeps_stack events :
  balanced events →
  (∀ stack info, ∃ reports,
     run' events (stack ++ [info])
       = Ok (reports, stack ++ [withReturns info (ownReturns 0 events)]))
  ∧ ∃ reports, run' events [] = Ok (reports, []).
Proof.
  intros H. split; [by apply balanced_run_top | by apply balanced_run_empty].
Qed.

(** X2. When a function is entered, its body walked and the function left,
    the exit decides on a frame that holds the function's node and exactly
    the return statements of its own body, those of nested functions left
    out; the reports of the body come first, then the function's own, and
    the stack is as it was before. *)
Theorem exit_sees_own_returns n inner stack :
  balanced inner →
  ∃ innerReports exitReports,
    run' inner (stack ++ [ {| node := n; returns := [] |} ])
      = Ok (innerReports,
            stack ++ [ {| node := n; returns := ownReturns 0 inner |} ])
    ∧ dispatch' (Exit n) [ {| node := n; returns := ownReturns 0 inner |} ]
      = Ok (exitReports, [])
    ∧ run' (Enter n :: inner ++ [Exit n]) stack
      = Ok (innerReports ++ exitReports, stack).
Proof. intros Hin. by apply function_walk, balanced_run_top. Qed.

End Facts.

(** *** The allow-list of names *)

(** The two exemptions tested before the names. *)
Lemma isAllowedFunction_names options n names :
  allowedNames options = Some names →
  isAllowedFunction options n
  = (allowFunctionsWithoutTypeParameters options
     && negb (bool_decide (is_Some (typeParameters n))))
    || (allowIIFEs options && isIIFE n)
    || match resolvedName n with
       | Some name => includes names name
       | None => false
       end.
Proof.
  intros Hnames. unfold isAllowedFunction, resolvedName. rewrite Hnames.
  destruct (allowFunctionsWithoutTypeParameters options && _); [done|].
  destruct (allowIIFEs options && _); [done|]. simpl.
  destruct names as [|name0 names].
  { destruct (type n); [| |];
      try (destruct (JS.truthy (funcName n))); destruct (funcName n);
      try done; by destruct (id n). }
  destruct (type n).
  - destruct (JS.truthy (funcName n)) eqn:Ht; simpl.
    + destruct (funcName n); [|done]. by destruct (_ || _).
    + done.
  - by destruct (id n).
  - destruct (JS.truthy (funcName n)) eqn:Ht; simpl.
    + destruct (funcName n); [|done]. by destruct (_ || _).
    + done.
Qed.

(** X3. A function that has a name of its own is looked up in the
    allow-list under that name and no other: the declarator or member that
    holds a named function expression is not consulted. *)
Theorem own_name_decides_allowedNames options n names own :
  allowedNames options = Some names →
  id n = Some own →
  own ≠ "" →
  isAllowedFunction options n
  = (allowFunctionsWithoutTypeParameters options
     && negb (bool_decide (is_Some (typeParameters n))))
    || (allowIIFEs options && isIIFE n)
    || includes names own.
Proof.
  intros Hnames Hid Hown. rewrite (isAllowedFunction_names _ _ _ Hnames).
  f_equal. unfold resolvedName, funcName. rewrite Hid.
  assert (JS.truthy (Some own) = true) as ->.
  { simpl. apply negb_true_iff, String.eqb_neq. done. }
  simpl. rewrite (proj2 (negb_true_iff _) (proj2 (String.eqb_neq _ _) Hown)).
  by destruct (type n).
Qed.

(** X4. The allow-list exempts no function when it is absent or empty, and
    no anonymous function expression whose parent is a declarator with a
    pattern, a member with a computed or non-identifier key, or a node of
    any other kind. *)
Theorem no_name_no_allowedNames_exemption options n :
  (allowedNames options = None
   ∨ allowedNames options = Some []
   ∨ (type n ≠ FunctionDeclaration ∧ id n = None
      ∧ match parent n with
        | VariableDeclarator (IdentifierName _) => False
        | MethodDefinition (IdentifierName _) false
        | PropertyDefinition (IdentifierName _) false
        | Property (IdentifierName _) false => False
        | _ => True
        end)) →
  isAllowedFunction options n
  = (allowFunctionsWithoutTypeParameters options
     && negb (bool_decide (is_Some (typeParameters n))))
    || (allowIIFEs options && isIIFE n).
Proof.
  intros [Hnone|[Hnil|(Hty & Hid & Hparent)]].
  - unfold isAllowedFunction. rewrite Hnone.
    destruct (_ && negb _); [done|]. by destruct (_ && isIIFE n).
  - rewrite (isAllowedFunction_names _ _ _ Hnil). unfold includes. simpl.
    destruct (resolvedName n); by rewrite orb_false_r.
  - destruct (allowedNames options) as [names|] eqn:Hnames.
    + rewrite (isAllowedFunction_names _ _ _ Hnames).
      unfold resolvedName, funcName. rewrite Hid. simpl.
      destruct (type n); [|done|];
        destruct (parent n) as [[]|[] []|[] []|[] []| |]; simpl in *;
        try done; by rewrite orb_false_r.
    + unfold isAllowedFunction. rewrite Hnames.
      destruct (_ && negb _); [done|]. by destruct (_ && isIIFE n).
Qed.

Lemma nestedWalk_balanced : balanced nestedWalk.
Proof.
  apply (balanced_function ReturnTypeSamples.declaration
           [ Return (ret 15 24);
             Enter ReturnTypeSamples.iifeArrow;
             Return (ret 34 43);
             Exit ReturnTypeSamples.iifeArrow;
             Return (ret 51 60) ] []); [|constructor].
  constructor.
  apply (balanced_function ReturnTypeSamples.iifeArrow [Return (ret 34 43)]
           [Return (ret 51 60)]); repeat constructor.
Defined.

Lemma balanced_run_keeps_stack_witness :
  ∃ reports,
    run (λ _ _, false) (λ _, false) (λ _ _, false) ReturnTypeSamples.headLoc
      ReturnTypeSamples.noOptions nestedWalk [] = Ok (reports, []).
Proof.
  apply (balanced_run_keeps_stack (λ _ _, false) (λ _, false) (λ _ _, false)
           ReturnTypeSamples.headLoc ReturnTypeSamples.noOptions nestedWalk).
  exact nestedWalk_balanced.
Defined.

Lemma exit_sees_own_returns_witness :
  ownReturns 0
    [ Return (ret 15 24); Enter ReturnTypeSamples.iifeArrow;
      Return (ret 34 43); Exit ReturnTypeSamples.iifeArrow;
      Return (ret 51 60) ]
  = [ret 15 24; ret 51 60]
  ∧ ∃ innerReports exitReports,
      run (λ _ _, false) (λ _, false) (λ _ _, false) ReturnTypeSamples.headLoc
        ReturnTypeSamples.noOptions
        [ Return (ret 15 24); Enter ReturnTypeSamples.iifeArrow;
          Return (ret 34 43); Exit ReturnTypeSamples.iifeArrow;
          Return (ret 51 60) ]
        [ {| node := ReturnTypeSamples.declaration; returns := [] |} ]
      = Ok (innerReports,
            [ {| node := ReturnTypeSamples.declaration;
                 returns := [ret 15 24; ret 51 60] |} ])
      ∧ dispatch (λ _ _, false) (λ _, false) (λ _ _, false)
          ReturnTypeSamples.headLoc ReturnTypeSamples.noOptions
          (Exit ReturnTypeSamples.declaration)
          [ {| node := ReturnTypeSamples.declaration;
               returns := [ret 15 24; ret 51 60] |} ]
        = Ok (exitReports, [])
      ∧ run (λ _ _, false) (λ _, false) (λ _ _, false) ReturnTypeSamples.headLoc
          ReturnTypeSamples.noOptions nestedWalk []
        = Ok (innerReports ++ exitReports, []).
Proof.
  split; [reflexivity|].
  apply (exit_sees_own_returns (λ _ _, false) (λ _, false) (λ _ _, false)
           ReturnTypeSamples.headLoc ReturnTypeSamples.noOptions
           ReturnTypeSamples.declaration
           [ Return (ret 15 24); Enter ReturnTypeSamples.iifeArrow;
             Return (ret 34 43); Exit ReturnTypeSamples.iifeArrow;
             Return (ret 51 60) ] []).
  constructor.
  apply (balanced_function ReturnTypeSamples.iifeArrow [Return (ret 34 43)]
           [Return (ret 51 60)]); repeat constructor.
Defined.

Lemma own_name_decides_allowedNames_witness :
  isAllowedFunction allowFooKey namedExpression = false.
Proof.
  rewrite (own_name_decides_allowedNames allowFooKey namedExpression
             ["foo"; "key"] "bar"); [reflexivity..|discriminate].
Defined.

Lemma no_name_no_allowedNames_exemption_witness :
  isAllowedFunction allowFooKey computedMember = false.
Proof.
  rewrite (no_name_no_allowedNames_exemption allowFooKey computedMember);
    [reflexivity|].
  right; right. repeat split. discriminate.
Defined.

End TraversalProps.

(* ===================================================================== *)
(** ** Further properties of [no-useless-template-literals] *)
(* ===================================================================== *)

Module TemplateFixProps.
Import ESTree Fixer NoUselessTemplateLiterals Layout Inlining.
Import TemplateLiteralProps.

(** Settles the maxima of the goal from the inequalities at hand. *)
Ltac max_tests :=
  repeat match goal with
         | |- context [Z.max ?a ?b] =>
             first [ rewrite (Z.max_r a b) by lia
                   | rewrite (Z.max_l a b) by lia ]
         end.

(** The edits of one slot, composed: one edit from the [${] to the [}],
    with the inlined text. *)
Lemma slot_edits_merged src q q' e :
  0 ≤ qstart q →
  qstart q + 3 ≤ qend q → qend q ≤ (range e).1 →
  (range e).1 + minWidth e ≤ (range e).2 →
  (range e).2 ≤ qstart q' → qstart q' + 2 ≤ qend q' →
  mergeFixes src
    ([ removeRange (qend q - 2, (range e).1);
       removeRange ((range e).2, qstart q' + 1) ]
     ++ match e with
        | Literal _ raw value => [ replaceText e (escapedValue raw value) ]
        | TemplateLiteral r _ _ =>
            [ removeRange (r.1, r.1 + 1); removeRange (r.2 - 1, r.2) ]
        | _ => []
        end)
  = Some {| fix_range := (qend q - 2, qstart q' + 1);
            fix_text := inlined src e |}.
Proof.
  intros H0 H1 H2 H3 H4 H5.
  unfold qstart, qend in *.
  assert (1 ≤ minWidth e) by (destruct e; simpl; lia).
  unfold mergeFixes, sortFixes, MIN_SAFE_INTEGER.
  destruct e as [r raw v|r qs es|r n|k r]; simpl in *;
    repeat (progress (unfold fix_leb, mbind, option_bind; simpl; order_tests));
    max_tests; rewrite ?slice_same, ?append_empty_l, ?append_empty_r;
    reflexivity.
Qed.

(** The report of the expression at position [i], composed. *)
Lemma report_merged node src i e :
  wellFormed node = true →
  expressions node !! i = Some e →
  ∃ q q' edits,
    quasis node !! i = Some q ∧ quasis node !! S i = Some q'
    ∧ qstart q + 3 ≤ qend q ∧ qstart q' + 2 ≤ qend q'
    ∧ fixGeneral node e = Some edits
    ∧ mergeFixes src edits
      = Some {| fix_range := (qend q - 2, qstart q' + 1);
                fix_text := inlined src e |}.
Proof.
  intros Hok Hi.
  destruct (fixGeneral_at node i e Hok Hi) as (q & q' & Hq & Hq' & Hfix).
  destruct (slotsOk_lookup _ _ _ _ Hok Hi) as (q1 & q2 & Hq1 & Hq2 & Hb).
  rewrite Hq in Hq1; rewrite Hq' in Hq2; inversion Hq1; inversion Hq2; subst q1 q2.
  exists q, q'. eexists. repeat split; try done; try tauto.
  apply slot_edits_merged; tauto.
Qed.

(** X5. In the general case the fix of every report, applied to the source
    text, replaces the text from the [${] before the reported expression to
    the [}] after it by the inlined text, and leaves the rest of the source
    as it is. *)
Theorem fix_replaces_slot_by_inlined_text
    (services : ParserServices) (node : TemplateLiteralNode) (src : string) :
  parent_type node ≠ AST_NODE_TYPES.TaggedTemplateExpression →
  hasSingleStringVariable services node = false →
  wellFormed node = true →
  Forall (λ r, ∃ i q q' edits,
            expressions node !! i = Some (report_node r)
            ∧ quasis node !! i = Some q
            ∧ quasis node !! S i = Some q'
            ∧ fix_ r = Some edits
            ∧ applyFixes src edits
              = Some (JS.slice src 0 (qend q - 2)
                        ++ inlined src (report_node r)
                        ++ JS.sliceFrom src (qstart q' + 1))%string)
    (TemplateLiteral_visitor services node).
Proof.
  intros Hparent Hsingle Hok.
  rewrite (visitor_general _ _ Hparent Hsingle).
  apply Forall_forall. intros r Hr.
  apply list_elem_of_fmap in Hr as (e & -> & He). simpl.
  apply elem_of_fixableExpressions in He as [He _].
  apply list_elem_of_lookup in He as [i Hi].
  destruct (report_merged node src i e Hok Hi)
    as (q & q' & edits & Hq & Hq' & _ & _ & Hfix & Hmerge).
  exists i, q, q', edits. repeat split; try done.
  unfold applyFixes. rewrite Hmerge. reflexivity.
Qed.

Lemma fix_replaces_slot_by_inlined_text_witness :
  Forall (λ r, ∃ i q q' edits,
            expressions TemplateSamples.mixed !! i = Some (report_node r)
            ∧ quasis TemplateSamples.mixed !! i = Some q
            ∧ quasis TemplateSamples.mixed !! S i = Some q'
            ∧ fix_ r = Some edits
            ∧ applyFixes TemplateSamples.mixedSrc edits
              = Some (JS.slice TemplateSamples.mixedSrc 0 (qend q - 2)
                        ++ inlined TemplateSamples.mixedSrc (report_node r)
                        ++ JS.sliceFrom TemplateSamples.mixedSrc (qstart q' + 1))%string)
    (TemplateLiteral_visitor TemplateSamples.services TemplateSamples.mixed).
Proof.
  apply (fix_replaces_slot_by_inlined_text TemplateSamples.services
           TemplateSamples.mixed TemplateSamples.mixedSrc);
    [discriminate | reflexivity | reflexivity].
Defined.

Lemma StronglySorted_lookup {A} (R : A → A → Prop) (l : list A) i j x y :
  StronglySorted R l → (i < j)%nat → l !! i = Some x → l !! j = Some y → R x y.
Proof.
  intros Hs. revert i j. induction Hs as [|z l Hl IH Hz]; intros i j Hij Hi Hj; [done|].
  destruct j as [|j]; [lia|]. destruct i as [|i]; simpl in *.
  - inversion Hi; subst. rewrite Forall_forall in Hz. apply Hz.
    apply list_elem_of_lookup. eauto.
  - apply (IH i j); [lia|done..].
Qed.

(** X6. In the general case the composed fixes of the reports of one
    template literal follow each other in the source without overlap: each
    exists, and that of an earlier report ends before that of a later report
    starts. *)
Theorem fixes_of_different_reports_do_not_overlap
    (services : ParserServices) (node : TemplateLiteralNode) (src : string) :
  parent_type node ≠ AST_NODE_TYPES.TaggedTemplateExpression →
  hasSingleStringVariable services node = false →
  wellFormed node = true →
  Forall (λ r, is_Some (fix_ r ≫= mergeFixes src))
    (TemplateLiteral_visitor services node)
  ∧ ∀ i j r r' f f',
      (i < j)%nat →
      TemplateLiteral_visitor services node !! i = Some r →
      TemplateLiteral_visitor services node !! j = Some r' →
      fix_ r ≫= mergeFixes src = Some f →
      fix_ r' ≫= mergeFixes src = Some f' →
      (fix_range f).2 ≤ (fix_range f').1.
Proof.
  intros Hparent Hsingle Hok.
  rewrite (visitor_general _ _ Hparent Hsingle).
  split.
  { apply Forall_forall. intros r Hr.
    apply list_elem_of_fmap in Hr as (e & -> & He). simpl.
    apply elem_of_fixableExpressions in He as [He _].
    apply list_elem_of_lookup in He as [i Hi].
    destruct (report_merged node src i e Hok Hi)
      as (q & q' & edits & _ & _ & _ & _ & -> & Hmerge).
    simpl. rewrite Hmerge. eauto. }
  intros i j r r' f f' Hij Hr Hr' Hf Hf'.
  rewrite list_lookup_fmap in Hr, Hr'.
  destruct (fixableExpressions node !! i) as [e|] eqn:He; [|done].
  destruct (fixableExpressions node !! j) as [e'|] eqn:He'; [|done].
  simpl in Hr, Hr'. inversion Hr; inversion Hr'; subst r r'. simpl in Hf, Hf'.
  assert (Hbefore : before e e').
  { apply (StronglySorted_lookup before (fixableExpressions node) i j); try done.
    apply StronglySorted_filter.
    by apply (expressions_in_source_order (quasis node)). }
  assert (Hin : e ∈ expressions node ∧ e' ∈ expressions node).
  { split; eapply (proj1 (elem_of_fixableExpressions node _));
      apply list_elem_of_lookup; eauto. }
  destruct Hin as [[k Hk]%list_elem_of_lookup [k' Hk']%list_elem_of_lookup].
  destruct (report_merged node src k e Hok Hk)
    as (q & q' & edits & Hq & Hq' & Hw & Hw' & Hfix & Hmerge).
  destruct (report_merged node src k' e' Hok Hk')
    as (p & p' & edits' & Hp & Hp' & Hv & Hv' & Hfix' & Hmerge').
  rewrite Hfix in Hf. rewrite Hfix' in Hf'. simpl in Hf, Hf'.
  rewrite Hmerge in Hf. rewrite Hmerge' in Hf'.
  inversion Hf; inversion Hf'; subst f f'. simpl.
  destruct (slotsOk_lookup _ _ _ _ Hok Hk) as (q1 & q2 & Hq1 & Hq2 & Hb).
  destruct (slotsOk_lookup _ _ _ _ Hok Hk') as (p1 & p2 & Hp1 & Hp2 & Hc).
  rewrite Hq in Hq1; rewrite Hq' in Hq2; inversion Hq1; inversion Hq2; subst q1 q2.
  rewrite Hp in Hp1; rewrite Hp' in Hp2; inversion Hp1; inversion Hp2; subst p1 p2.
  assert (1 ≤ minWidth e ∧ 1 ≤ minWidth e') as [? ?]
    by (split; [destruct e | destruct e']; simpl; lia).
  unfold before in Hbefore.
  assert (Hkk : (k < k')%nat).
  { destruct (decide (k < k')%nat) as [|Hge]; [done|]. exfalso.
    destruct (decide (k = k')) as [->|Hne].
    - rewrite Hk in Hk'. inversion Hk'; subst. lia.
    - pose proof (expression_before_quasi _ _ k' k e' q Hok ltac:(lia) Hk' Hq).
      unfold qstart, qend in *. lia. }
  destruct (decide (S k = k')) as [<-|Hne].
  - rewrite Hq' in Hp. inversion Hp; subst. lia.
  - destruct (lookup_lt_is_Some_2 (expressions node) (S k)) as [e1 He1].
    { apply lookup_lt_Some in Hk'. lia. }
    destruct (slotsOk_lookup _ _ _ _ Hok He1) as (u & u' & Hu & _ & Hd).
    rewrite Hq' in Hu. inversion Hu; subst u.
    pose proof (expression_before_quasi _ _ (S k) k' e1 p Hok ltac:(lia) He1 Hp).
    assert (1 ≤ minWidth e1) by (destruct e1; simpl; lia).
    unfold qstart, qend in *. lia.
Qed.

Lemma fixes_of_different_reports_do_not_overlap_witness :
  Forall (λ r, is_Some (fix_ r ≫= mergeFixes TemplateSamples.mixedSrc))
    (TemplateLiteral_visitor TemplateSamples.services TemplateSamples.mixed).
Proof.
  apply (fixes_of_different_reports_do_not_overlap TemplateSamples.services
           TemplateSamples.mixed TemplateSamples.mixedSrc);
    [discriminate | reflexivity | reflexivity].
Defined.

End TemplateFixProps.

(* ===================================================================== *)
(** ** Properties of the later revision of [no-useless-template-literals] *)
(* ===================================================================== *)

Module RevisedProps.
Import ESTree Fixer NoUselessTemplateLiterals Layout.
Import TemplateLiteralProps TemplateFixProps.
Module R := NoUselessTemplateLiteralsRevised.

(** *** The escaping *)

Lemma startsWithBrace_escapeUnescaped escaped l :
  R.startsWithBrace (R.escapeUnescapedFrom escaped l) = R.startsWithBrace l.
Proof.
  destruct l as [|c l]; [done|]. simpl.
  destruct (negb escaped && _) eqn:Hm; [|done]. simpl.
  apply andb_true_iff in Hm as [_ Hm]. apply orb_true_iff in Hm as [Hm|Hm].
  - apply Ascii.eqb_eq in Hm as ->. reflexivity.
  - apply andb_true_iff in Hm as [Hm _]. apply Ascii.eqb_eq in Hm as ->.
    reflexivity.
Qed.

Lemma escapeUnescaped_free escaped l :
  R.interpolationFreeFrom escaped (R.escapeUnescapedFrom escaped l) = true.
Proof.
  revert escaped. induction l as [|c l IH]; intros escaped; [done|].
  simpl. destruct (negb escaped && _) eqn:Hm.
  - apply andb_true_iff in Hm as [He _]. apply negb_true_iff in He as ->.
    simpl. apply IH.
  - simpl. rewrite startsWithBrace_escapeUnescaped.
    rewrite Hm. apply IH.
Qed.

Lemma escapeUnescaped_id escaped l :
  R.interpolationFreeFrom escaped l = true →
  R.escapeUnescapedFrom escaped l = l.
Proof.
  revert escaped. induction l as [|c l IH]; intros escaped H; [done|].
  simpl in *.
  destruct (negb escaped && _); [done|]. f_equal. by apply IH.
Qed.

(** X8. The escaping of the later revision leaves no backtick and no [${]
    unescaped, whatever the text; it changes nothing in a text that has
    none; so escaping twice is escaping once. *)
Theorem escapeUnescaped_safe_and_idempotent (s : string) :
  R.interpolationFreeFrom false (JS.chars (R.escapeUnescaped s)) = true
  ∧ (R.interpolationFreeFrom false (JS.chars s) = true → R.escapeUnescaped s = s)
  ∧ R.escapeUnescaped (R.escapeUnescaped s) = R.escapeUnescaped s.
Proof.
  unfold R.escapeUnescaped. rewrite !chars_str.
  split; [apply escapeUnescaped_free|]. split.
  - intros H. rewrite (escapeUnescaped_id _ _ H). apply str_chars.
  - by rewrite (escapeUnescaped_id _ _ (escapeUnescaped_free _ _)).
Qed.

(** *** The order of the reports *)

Lemma turn_at node i e next :
  wellFormed node = true →
  expressions node !! i = Some e →
  R.hasQuasis e = true →
  ∃ q q' branch patch,
    quasis node !! i = Some q ∧ quasis node !! S i = Some q'
    ∧ R.fixersOf e (R.nextAfter (JS.chars (quasi_raw q')) next) = Some branch
    ∧ R.patchOf (Some q) branch.2 = Some patch
    ∧ R.turn node e next
      = Some ({| report_node := e;
                 messageId := noUselessTemplateLiteral;
                 fix_ := Some ([ removeRange (qend q - 2, (range e).1);
                                 removeRange ((range e).2, qstart q' + 1) ]
                               ++ branch.1 ++ patch) |},
              branch.2).
Proof.
  intros Hok Hi Hqs. unfold wellFormed in Hok.
  destruct (slotsOk_lookup _ _ _ _ Hok Hi) as (q & q' & Hq & Hq' & _).
  assert (Hbranch : is_Some (R.fixersOf e
            (R.nextAfter (JS.chars (quasi_raw q')) next))).
  { unfold R.fixersOf. destruct e as [r raw v|r qs es|r n|k r]; try by eexists.
    destruct (R.nextAfter _ next); simpl; [|by eexists].
    destruct qs as [|q0 qs]; [done|].
    destruct (last_is_Some (q0 :: qs)) as [_ [lq ->]]; [done|]. by eexists. }
  destruct Hbranch as [branch Hbranch].
  assert (Hpatch : is_Some (R.patchOf (Some q) branch.2)).
  { unfold R.patchOf. destruct (branch.2); by eexists. }
  destruct Hpatch as [patch Hpatch].
  exists q, q', branch, patch. repeat split; try done.
  unfold R.turn. rewrite (indexOf_expression _ _ _ _ Hok Hi).
  replace (Z.of_nat i + 1) with (Z.of_nat (S i)) by lia.
  rewrite !at_nat, Hq, Hq'. simpl. rewrite Hbranch. simpl.
  rewrite Hpatch. reflexivity.
Qed.

Lemma forEach_nodes node l next :
  wellFormed node = true →
  Forall (λ e, e ∈ expressions node ∧ R.hasQuasis e = true) l →
  ∃ reports,
    R.forEach node l next = Some reports
    ∧ report_node <$> reports = l
    ∧ Forall (λ r, is_Some (fix_ r)) reports.
Proof.
  intros Hok Hl. revert next.
  induction Hl as [|e l [He Hqs] _ IH]; intros next; [by exists []|].
  apply list_elem_of_lookup in He as [i Hi].
  destruct (turn_at node i e next Hok Hi Hqs)
    as (q & q' & branch & patch & _ & _ & _ & _ & Hturn).
  simpl. rewrite Hturn. simpl.
  destruct (IH branch.2) as (reports & -> & Hnodes & Hfix).
  eexists. split; [reflexivity|]. split.
  - rewrite fmap_cons. simpl. by rewrite Hnodes.
  - constructor; [by eexists|done].
Qed.

Lemma StronglySorted_snoc {A} (R : A → A → Prop) (l : list A) x :
  StronglySorted R l → Forall (λ y, R y x) l → StronglySorted R (l ++ [x]).
Proof.
  induction 1 as [|y l Hl IH Hy]; intros Hx; simpl.
  - repeat constructor.
  - inversion Hx; subst. constructor; [by apply IH|].
    apply Forall_app. split; [done|]. by constructor.
Qed.

Lemma StronglySorted_reverse {A} (R : A → A → Prop) (l : list A) :
  StronglySorted R l → StronglySorted (flip R) (reverse l).
Proof.
  induction 1 as [|x l Hl IH Hx]; [exact (SSorted_nil _)|].
  rewrite reverse_cons. apply StronglySorted_snoc; [done|].
  apply Forall_forall. intros y Hy. rewrite elem_of_reverse in Hy.
  rewrite Forall_forall in Hx. unfold flip. by apply Hx.
Qed.

(** X7. In the general case of the later revision the visitor does not
    throw and sends one report per fixable expression, rightmost first: the
    expression of each report starts after those of the later reports end.
    Every report carries a fix. *)
Theorem revised_reports_in_reverse_source_order
    (services : ParserServices) (node : TemplateLiteralNode) :
  parent_type node ≠ AST_NODE_TYPES.TaggedTemplateExpression →
  hasSingleStringVariable services node = false →
  wellFormed node = true →
  Forall (λ e, R.hasQuasis e = true) (expressions node) →
  ∃ reports,
    R.TemplateLiteral_visitor services node = Some reports
    ∧ report_node <$> reports
      = reverse (List.filter isFixable (expressions node))
    ∧ StronglySorted (flip before) (report_node <$> reports)
    ∧ Forall (λ r, is_Some (fix_ r)) reports.
Proof.
  intros Hparent Hsingle Hok Hqs.
  unfold R.TemplateLiteral_visitor.
  destruct (AST_NODE_TYPES.eqb _ _) eqn:Heq;
    [by apply AST_NODE_TYPES_eqb_eq in Heq|].
  rewrite Hsingle.
  destruct (forEach_nodes node (R.fixableExpressions node) false Hok)
    as (reports & Hrun & Hnodes & Hfix).
  { apply Forall_forall. intros e He. unfold R.fixableExpressions in He.
    apply elem_of_reverse, list_elem_of_In, filter_In in He as [He _].
    apply list_elem_of_In in He. split; [done|].
    rewrite Forall_forall in Hqs. by apply Hqs. }
  exists reports. split; [done|]. split; [done|]. split; [|done].
  rewrite Hnodes. apply StronglySorted_reverse, StronglySorted_filter.
  by apply (expressions_in_source_order (quasis node)).
Qed.

Lemma revised_reports_in_reverse_source_order_witness :
  ∃ reports,
    R.TemplateLiteral_visitor TemplateSamples.services TemplateSamples.mixed
      = Some reports
    ∧ report_node <$> reports
      = [ Identifier (24, 27) "NaN";
          TemplateLiteral (18, 21) [TemplateSamples.quasi 18 21 "d"] [];
          Literal (12, 15) "'c'" (StringValue "c") ].
Proof.
  destruct (revised_reports_in_reverse_source_order TemplateSamples.services
              TemplateSamples.mixed) as (reports & Hv & Hn & _);
    [discriminate | reflexivity | reflexivity | repeat constructor |].
  exists reports. split; [exact Hv | exact Hn].
Defined.

(** *** Template text put together *)

Lemma free_app escaped a b :
  R.interpolationFreeFrom escaped (a ++ b)
  = R.interpolationFreeFrom escaped a
    && R.interpolationFreeFrom (R.scanAll escaped a) b
    && negb (R.endsWithEscapedDollarSignFrom escaped a && R.startsWithBrace b).
Proof.
  revert escaped. induction a as [|c a IH]; intros escaped.
  - simpl. by rewrite andb_true_r.
  - destruct a as [|c' a].
    + simpl. unfold R.scanAll; simpl.
      destruct escaped, (Ascii.eqb c JS.backtick), (Ascii.eqb c JS.dollar),
        (R.startsWithBrace b), (R.interpolationFreeFrom _ b); reflexivity.
    + change (R.interpolationFreeFrom escaped ((c :: c' :: a) ++ b))
        with (if negb escaped
                 && (Ascii.eqb c JS.backtick
                     || (Ascii.eqb c JS.dollar && Ascii.eqb c' JS.lbrace))
              then false
              else R.interpolationFreeFrom (R.scan escaped c) ((c' :: a) ++ b)).
      change (R.interpolationFreeFrom escaped (c :: c' :: a))
        with (if negb escaped
                 && (Ascii.eqb c JS.backtick
                     || (Ascii.eqb c JS.dollar && Ascii.eqb c' JS.lbrace))
              then false
              else R.interpolationFreeFrom (R.scan escaped c) (c' :: a)).
      change (R.endsWithEscapedDollarSignFrom escaped (c :: c' :: a))
        with (R.endsWithEscapedDollarSignFrom (R.scan escaped c) (c' :: a)).
      change (R.scanAll escaped (c :: c' :: a))
        with (R.scanAll (R.scan escaped c) (c' :: a)).
      rewrite IH. by destruct (negb escaped && _).
Qed.

Lemma scanAll_app escaped a b :
  R.scanAll escaped (a ++ b) = R.scanAll (R.scanAll escaped a) b.
Proof. unfold R.scanAll. apply foldl_app. Qed.

Lemma ends_app escaped a c b :
  R.endsWithEscapedDollarSignFrom escaped (a ++ c :: b)
  = R.endsWithEscapedDollarSignFrom (R.scanAll escaped a) (c :: b).
Proof.
  revert escaped. induction a as [|x a IH]; intros escaped; [done|].
  change (R.scanAll escaped (x :: a)) with (R.scanAll (R.scan escaped x) a).
  rewrite <- IH. simpl. by destruct (a ++ c :: b) eqn:Hab; [destruct a|].
Qed.

Lemma ends_inv escaped a :
  R.endsWithEscapedDollarSignFrom escaped a = true →
  ∃ p, a = p ++ [JS.dollar] ∧ R.scanAll escaped p = false.
Proof.
  revert escaped. induction a as [|c a IH]; intros escaped H; [done|].
  destruct a as [|c' a].
  - simpl in H. apply andb_true_iff in H as [He Hc].
    apply Ascii.eqb_eq in Hc as ->. apply negb_true_iff in He as ->.
    by exists [].
  - change (R.endsWithEscapedDollarSignFrom (R.scan escaped c) (c' :: a) = true) in H.
    destruct (IH _ H) as (p & Hp & Hs). exists (c :: p). split.
    + simpl. by rewrite Hp.
    + done.
Qed.

Lemma escapeTrailingDollar_snoc p :
  R.escapeTrailingDollar (p ++ [JS.dollar]) = p ++ [JS.backslash; JS.dollar].
Proof.
  unfold R.escapeTrailingDollar. rewrite reverse_snoc. simpl.
  by rewrite reverse_involutive.
Qed.

(** Two pieces of template text, the first guarded, make template text. *)
Lemma guarded_app a b :
  R.quasiText a = true →
  R.interpolationFreeFrom false b = true →
  R.interpolationFreeFrom false (R.guarded (R.startsWithBrace b) a ++ b) = true
  ∧ R.scanAll false (R.guarded (R.startsWithBrace b) a ++ b) = R.scanAll false b.
Proof.
  unfold R.quasiText. intros [Ha Hend]%andb_true_iff Hb.
  apply negb_true_iff in Hend. unfold R.guarded.
  destruct (R.startsWithBrace b && _) eqn:Hg.
  - apply andb_true_iff in Hg as [Hsw Hends].
    destruct (ends_inv _ _ Hends) as (p & -> & Hp).
    rewrite escapeTrailingDollar_snoc.
    rewrite free_app in Ha. rewrite Hp in Ha.
    apply andb_true_iff in Ha as [Ha _]. apply andb_true_iff in Ha as [Ha _].
    rewrite free_app, scanAll_app, free_app, scanAll_app, Hp, Ha. simpl.
    rewrite Hb. rewrite (ends_app false p JS.backslash [JS.dollar]), Hp.
    rewrite andb_false_r. simpl. split; [done|].
    by rewrite (scanAll_app false p), Hp.
  - rewrite free_app, scanAll_app, Ha, Hend, Hb. simpl.
    rewrite andb_comm in Hg. by rewrite Hg.
Qed.

Lemma nextAfter_false b : R.nextAfter b false = R.startsWithBrace b.
Proof. by destruct b. Qed.

Lemma nextAfter_app a b :
  R.nextAfter a (R.startsWithBrace b) = R.startsWithBrace (a ++ b).
Proof. by destruct a. Qed.

(** *** Slices of the source, as lists of characters *)

Lemma chars_append a b : JS.chars (a ++ b)%string = JS.chars a ++ JS.chars b.
Proof.
  induction a as [|c a IH]; [done|].
  change (c :: JS.chars (a ++ b)%string = c :: (JS.chars a ++ JS.chars b)).
  by f_equal.
Qed.

Lemma chars_slice s a b :
  JS.chars (JS.slice s a b) = JS.sliceChars (JS.chars s) a b.
Proof. apply chars_str. Qed.

Lemma sliceChars_inside l a b :
  0 ≤ a → a ≤ b → b ≤ Z.of_nat (length l) →
  JS.sliceChars l a b = take (Z.to_nat (b - a)) (drop (Z.to_nat a) l).
Proof.
  intros Ha Hab Hb. unfold JS.sliceChars.
  by rewrite !relIndex_inside by lia.
Qed.

Lemma length_sliceChars l a b :
  0 ≤ a → a ≤ b → b ≤ Z.of_nat (length l) →
  Z.of_nat (length (JS.sliceChars l a b)) = b - a.
Proof.
  intros Ha Hab Hb. rewrite sliceChars_inside by done.
  rewrite length_take, length_drop. lia.
Qed.

Lemma sliceChars_split l a b c :
  0 ≤ a → a ≤ b → b ≤ c → c ≤ Z.of_nat (length l) →
  JS.sliceChars l a c = JS.sliceChars l a b ++ JS.sliceChars l b c.
Proof.
  intros Ha Hab Hbc Hc. rewrite !sliceChars_inside by lia.
  replace (Z.to_nat (c - a)) with (Z.to_nat (b - a) + Z.to_nat (c - b))%nat by lia.
  rewrite <- take_take_drop, drop_drop.
  by replace (Z.to_nat a + Z.to_nat (b - a))%nat with (Z.to_nat b) by lia.
Qed.

(** A slice that holds [x ++ y] holds [x] in its first part. *)
Lemma sliceChars_prefix l a c x y :
  0 ≤ a → a ≤ c → c ≤ Z.of_nat (length l) →
  JS.sliceChars l a c = x ++ y →
  JS.sliceChars l a (a + Z.of_nat (length x)) = x
  ∧ JS.sliceChars l (a + Z.of_nat (length x)) c = y.
Proof.
  intros Ha Hac Hc Heq.
  assert (Hlen : Z.of_nat (length x) + Z.of_nat (length y) = c - a).
  { rewrite <- (length_sliceChars l a c) by done. rewrite Heq, length_app. lia. }
  rewrite (sliceChars_split l a (a + Z.of_nat (length x)) c) in Heq by lia.
  apply app_inj_1 in Heq; [done|].
  apply Nat2Z.inj. rewrite length_sliceChars by lia. lia.
Qed.

(** *** The fix of a literal slot *)

Lemma literal_merged src q q' r text (patched : bool) :
  0 ≤ qstart q →
  qstart q + 3 ≤ qend q → qend q ≤ r.1 → r.1 + 1 ≤ r.2 →
  r.2 ≤ qstart q' → qstart q' + 2 ≤ qend q' →
  mergeFixes src
    ([ removeRange (qend q - 2, r.1); removeRange (r.2, qstart q' + 1) ]
     ++ [ {| fix_range := r; fix_text := text |} ]
     ++ (if patched
         then [ R.replaceTextRange (qend q - 3, qend q - 2) "\$" ]
         else []))
  = Some {| fix_range := ((if patched then qend q - 3 else qend q - 2),
                          qstart q' + 1);
            fix_text := ((if patched then "\$" else "") ++ text)%string |}.
Proof.
  intros H0 H1 H2 H3 H4 H5.
  unfold qstart, qend in *.
  unfold mergeFixes, sortFixes, MIN_SAFE_INTEGER.
  destruct patched; simpl in *;
    repeat (progress (unfold fix_leb, mbind, option_bind; simpl; order_tests));
    max_tests; rewrite ?slice_same, ?append_empty_l, ?append_empty_r;
    reflexivity.
Qed.

Lemma chars_inj a b : JS.chars a = JS.chars b → a = b.
Proof. intros H. by rewrite <- (str_chars a), <- (str_chars b), H. Qed.

Lemma chars_sliceFrom s a :
  JS.chars (JS.sliceFrom s a)
  = JS.sliceChars (JS.chars s) a (Z.of_nat (length (JS.chars s))).
Proof. unfold JS.sliceFrom. by rewrite chars_slice. Qed.

(** The text of a quasi in the source, as characters. *)
Lemma quasiMatches_chars src first last_ q :
  quasiMatches src first last_ q = true →
  0 ≤ qstart q ∧ qstart q ≤ qend q
  ∧ qend q ≤ Z.of_nat (length (JS.chars src))
  ∧ JS.sliceChars (JS.chars src) (qstart q) (qend q)
    = (if first then JS.backtick else "}"%char)
        :: JS.chars (quasi_raw q)
        ++ (if last_ then [JS.backtick] else [JS.dollar; JS.lbrace]).
Proof.
  unfold quasiMatches, quasiText, qstart, qend. intros H. bool_hyps.
  repeat split; try done.
  rewrite <- chars_slice.
  match goal with H : JS.slice _ _ _ = _ |- _ => rewrite H end.
  rewrite !chars_append. by destruct first, last_.
Qed.

(** X9. In the later revision, take a template literal with one
    interpolation, a literal, that is not the single-interpolation case; let
    the raw texts of its two quasis be template text, and let the escaped
    text of the literal not end in a lone backslash.  The visitor sends one
    report, and its fix, applied to a source the tree agrees with, puts one
    text between the backticks of the template and leaves the rest of the
    source as it is; that text has no interpolation and no unescaped
    backtick, so the fixed template literal is one quasi. *)
Theorem revised_literal_fix_leaves_one_quasi
    (services : ParserServices) (node : TemplateLiteralNode) (src : string)
    (q0 q1 : TemplateElement) (r : Range) (raw : string) (value : LiteralValue) :
  parent_type node ≠ AST_NODE_TYPES.TaggedTemplateExpression →
  hasSingleStringVariable services node = false →
  quasis node = [q0; q1] →
  expressions node = [Literal r raw value] →
  matchesSource src node = true →
  R.quasiText (JS.chars (quasi_raw q0)) = true →
  R.quasiText (JS.chars (quasi_raw q1)) = true →
  R.scanAll false (R.escapedBase raw value) = false →
  ∃ edits fixedText,
    R.TemplateLiteral_visitor services node
      = Some [ {| report_node := Literal r raw value;
                  messageId := noUselessTemplateLiteral;
                  fix_ := Some edits |} ]
    ∧ applyFixes src edits
      = Some (JS.slice src 0 (node_range node).1
                ++ "`" ++ JS.str fixedText ++ "`"
                ++ JS.sliceFrom src (node_range node).2)%string
    ∧ R.quasiText fixedText = true.
Proof.
  intros Hparent Hsingle Hqs Hes Hsrc Hraw0 Hraw1 Hend.
  set (raw0 := JS.chars (quasi_raw q0)) in *.
  set (raw1 := JS.chars (quasi_raw q1)) in *.
  set (escaped := R.guarded (R.startsWithBrace raw1) (R.escapedBase raw value)).
  set (next := R.startsWithBrace (escaped ++ raw1)).
  (* the text *)
  assert (Hbase : R.quasiText (R.escapedBase raw value) = true).
  { unfold R.quasiText. rewrite Hend. unfold R.escapedBase.
    by rewrite escapeUnescaped_free. }
  pose proof Hraw1 as [Hfree1 Hend1]%andb_true_iff.
  apply negb_true_iff in Hend1.
  destruct (guarded_app _ _ Hbase Hfree1) as [Hfree Hscan].
  fold escaped in Hfree, Hscan. rewrite Hend1 in Hscan.
  destruct (guarded_app raw0 (escaped ++ raw1) Hraw0 Hfree) as [Hfree' Hscan'].
  fold next in Hfree', Hscan'. rewrite Hscan in Hscan'.
  exists ([ removeRange (qend q0 - 2, r.1); removeRange (r.2, qstart q1 + 1) ]
          ++ [ replaceText (Literal r raw value) (JS.str escaped) ]
          ++ (if next && R.endsWithEscapedDollarSign (quasi_raw q0)
              then [ R.replaceTextRange (qend q0 - 3, qend q0 - 2) "\$" ]
              else [])),
         (R.guarded next raw0 ++ escaped ++ raw1).
  (* the layout *)
  unfold matchesSource in Hsrc. rewrite Hqs, Hes in Hsrc.
  apply andb_true_iff in Hsrc as [Hsrc Hrange].
  apply andb_true_iff in Hsrc as [Hsrc _].
  apply andb_true_iff in Hsrc as [Hok' Hmatch].
  pose proof Hok' as Hok. unfold wellFormed in Hok. rewrite Hqs, Hes in Hok.
  simpl in Hmatch, Hrange.
  apply andb_true_iff in Hmatch as [Hm0 Hm1].
  apply range_eqb_eq in Hrange.
  destruct (quasiMatches_chars _ _ _ _ Hm0) as (H00 & H01 & H02 & Htext0).
  destruct (quasiMatches_chars _ _ _ _ Hm1) as (H10 & H11 & H12 & Htext1).
  fold raw0 in Htext0. fold raw1 in Htext1.
  assert (Hi : expressions node !! 0%nat = Some (Literal r raw value))
    by (by rewrite Hes).
  destruct (slotsOk_lookup _ _ _ _ Hok (eq_refl : [Literal r raw value] !! 0%nat = Some _))
    as (p & p' & Hp & Hp' & Hw0 & Hqe & Hwe & Heq' & Hw1 & _).
  simpl in Hp, Hp'. inversion Hp; inversion Hp'; subst p p'. simpl in Hqe, Hwe, Heq'.
  split; [|split].
  - (* the report *)
    unfold R.TemplateLiteral_visitor.
    destruct (AST_NODE_TYPES.eqb _ _) eqn:Heq;
      [by apply AST_NODE_TYPES_eqb_eq in Heq|].
    rewrite Hsingle. unfold R.fixableExpressions. rewrite Hes.
    change (reverse (List.filter isFixable [Literal r raw value]))
      with [Literal r raw value].
    destruct (turn_at node 0 (Literal r raw value) false Hok' Hi eq_refl)
      as (p & p' & branch & patch & Hp0 & Hp1 & Hbranch & Hpatch & Hturn).
    rewrite Hqs in Hp0, Hp1. simpl in Hp0, Hp1.
    inversion Hp0; inversion Hp1; subst p p'.
    simpl. rewrite Hturn. simpl.
    unfold R.fixersOf in Hbranch. fold raw1 in Hbranch.
    rewrite nextAfter_false in Hbranch. inversion Hbranch; subst branch.
    simpl in Hpatch |- *.
    unfold R.escapedValue in Hpatch |- *. fold (R.guarded (R.startsWithBrace raw1)
      (R.escapedBase raw value)) in Hpatch |- *. fold escaped in Hpatch |- *.
    rewrite nextAfter_app in Hpatch. fold next in Hpatch.
    unfold R.patchOf in Hpatch. simpl in Hpatch.
    destruct next; simpl in *.
    + inversion Hpatch; subst patch. reflexivity.
    + inversion Hpatch; subst patch. reflexivity.
  - (* the text *)
    unfold applyFixes.
    change (replaceText (Literal r raw value) (JS.str escaped))
      with {| fix_range := r; fix_text := JS.str escaped |}.
    rewrite (literal_merged src q0 q1 r (JS.str escaped)
               (next && R.endsWithEscapedDollarSign (quasi_raw q0)))
      by (unfold qstart, qend in *; lia).
    simpl. f_equal. unfold applyFix. simpl fix_range. simpl fix_text.
    apply chars_inj.
    rewrite !chars_append, !chars_slice, !chars_sliceFrom, !chars_str.
    rewrite Hrange. simpl fst. simpl snd.
    set (L := JS.chars src) in *.
    (* after the slot *)
    destruct (sliceChars_prefix L (qstart q1) (qend q1) ["}"%char]
                (raw1 ++ [JS.backtick])) as [_ Htail]; [lia..|exact Htext1|].
    change (Z.of_nat (length ["}"%char])) with 1 in Htail.
    change (quasi_range q1).1 with (qstart q1).
    change (quasi_range q1).2 with (qend q1).
    change (quasi_range q0).1 with (qstart q0).
    rewrite (sliceChars_split L (qstart q1 + 1) (qend q1)) by lia.
    rewrite Htail.
    (* before the slot *)
    unfold R.guarded. unfold R.endsWithEscapedDollarSign. fold raw0.
    destruct (next && R.endsWithEscapedDollarSignFrom false raw0) eqn:Hpatched.
    + apply andb_true_iff in Hpatched as [_ Hends].
      destruct (ends_inv _ _ Hends) as (pre & Hpre & _).
      rewrite Hpre, escapeTrailingDollar_snoc.
      rewrite Hpre in Htext0.
      destruct (sliceChars_prefix L (qstart q0) (qend q0) (JS.backtick :: pre)
                  [JS.dollar; JS.dollar; JS.lbrace]) as [Hhead Hrest]; [lia..| |].
      { rewrite Htext0. simpl. by rewrite <- app_assoc. }
      assert (Hpos : qstart q0 + Z.of_nat (length (JS.backtick :: pre)) = qend q0 - 3).
      { pose proof (length_sliceChars L (qstart q0) (qend q0) H00 H01 H02) as Hl.
        rewrite Htext0 in Hl. simpl in Hl. rewrite !length_app in Hl. simpl in Hl.
        simpl. lia. }
      rewrite Hpos in Hhead.
      rewrite (sliceChars_split L 0 (qstart q0) (qend q0 - 3)) by lia.
      rewrite Hhead. simpl. rewrite <- !app_assoc. simpl. reflexivity.
    + destruct (sliceChars_prefix L (qstart q0) (qend q0) (JS.backtick :: raw0)
                  [JS.dollar; JS.lbrace]) as [Hhead Hrest]; [lia..|exact Htext0|].
      assert (Hpos : qstart q0 + Z.of_nat (length (JS.backtick :: raw0)) = qend q0 - 2).
      { pose proof (length_sliceChars L (qstart q0) (qend q0) H00 H01 H02) as Hl.
        rewrite Htext0 in Hl. simpl in Hl. rewrite !length_app in Hl. simpl in Hl.
        simpl. lia. }
      rewrite Hpos in Hhead.
      rewrite (sliceChars_split L 0 (qstart q0) (qend q0 - 2)) by lia.
      rewrite Hhead. simpl. rewrite <- !app_assoc. simpl. reflexivity.
  - unfold R.quasiText. by rewrite Hfree', Hscan'.
Qed.

Lemma revised_literal_fix_leaves_one_quasi_witness :
  ∃ edits fixedText,
    R.TemplateLiteral_visitor TemplateSamples.services TemplateSamples.dollarBrace
      = Some [ {| report_node := Literal (4, 9) "'{1}'" (StringValue "{1}");
                  messageId := noUselessTemplateLiteral;
                  fix_ := Some edits |} ]
    ∧ applyFixes TemplateSamples.dollarBraceSrc edits
      = Some (JS.slice TemplateSamples.dollarBraceSrc 0
                (node_range TemplateSamples.dollarBrace).1
                ++ "`" ++ JS.str fixedText ++ "`"
                ++ JS.sliceFrom TemplateSamples.dollarBraceSrc
                     (node_range TemplateSamples.dollarBrace).2)%string
    ∧ R.quasiText fixedText = true.
Proof.
  apply (revised_literal_fix_leaves_one_quasi TemplateSamples.services
           TemplateSamples.dollarBrace TemplateSamples.dollarBraceSrc
           (TemplateSamples.quasi 0 4 "$") (TemplateSamples.quasi 9 11 "")
           (4, 9) "'{1}'" (StringValue "{1}"));
    solve [discriminate | reflexivity].
Defined.

(** On [`$${'{1}'}`] the fix of the later revision gives [`\${1}`]. *)
Example revised_fix_of_dollar_before_brace :
  (reports ← R.TemplateLiteral_visitor TemplateSamples.services
               TemplateSamples.dollarBrace;
   report ← head reports;
   edits ← fix_ report;
   applyFixes TemplateSamples.dollarBraceSrc edits)
  = Some "`\${1}`".
Proof. reflexivity. Qed.

End RevisedProps.

(* ===================================================================== *)
(** ** Properties of the rendering of lint results *)
(* ===================================================================== *)

Module DocsTestProps.
Import DocsTest.

Lemma split_nonempty sep l : split sep l ≠ [].
Proof.
  destruct l as [|c l]; simpl; [done|].
  destruct (Ascii.eqb c sep); [done|]. by destruct (split sep l).
Qed.

(** Joining the pieces with the separator gives the text back. *)
Lemma join_split sep l : join [sep] (split sep l) = l.
Proof.
  induction l as [|c l IH]; [done|]. simpl.
  destruct (Ascii.eqb_spec c sep) as [->|Hne].
  - pose proof (split_nonempty sep l).
    destruct (split sep l) as [|piece pieces] eqn:Hs; [done|].
    change (join [sep] ([] :: piece :: pieces))
      with (sep :: join [sep] (piece :: pieces)).
    by rewrite IH.
  - pose proof (split_nonempty sep l).
    destruct (split sep l) as [|piece pieces] eqn:Hs; [done|].
    destruct pieces as [|piece' pieces]; simpl in *; by rewrite <- IH.
Qed.

Section Facts.

Variable maxStringLength : Z.

Local Abbreviation repeat_ := (repeat_ maxStringLength).
Local Abbreviation built := (built maxStringLength).
Local Abbreviation concat_ := (concat_ maxStringLength).
Local Abbreviation join_ := (join_ maxStringLength).
Local Abbreviation mark := (mark maxStringLength).
Local Abbreviation marks := (marks maxStringLength).
Local Abbreviation renderLines := (renderLines maxStringLength).
Local Abbreviation renderLintResults := (renderLintResults maxStringLength).
Local Abbreviation fits := (fits maxStringLength).

Lemma renderLines_no_errors i lines : renderLines i lines [] = Returns lines.
Proof.
  revert i. induction lines as [|text lines IH]; intros i; [done|].
  simpl. rewrite IH. reflexivity.
Qed.

Lemma length_trimStart l : (length (trimStart l) ≤ length l)%nat.
Proof.
  induction l as [|c l IH]; simpl; [done|].
  destruct (isWhiteSpace c); simpl; lia.
Qed.

Lemma length_trim l : (length (trim l) ≤ length l)%nat.
Proof.
  unfold trim. rewrite length_reverse.
  etransitivity; [apply length_trimStart|]. rewrite length_reverse.
  apply length_trimStart.
Qed.

(** X10. Without errors the rendering is the code itself, trimmed, with one
    line feed at its end: splitting the code into lines and joining them
    loses nothing.  Only a trimmed code that is as long as the longest
    string, so that the line feed has no room, makes it throw. *)
Theorem renderLintResults_without_errors (code : string) :
  Z.of_nat (length (JS.chars code)) ≤ maxStringLength →
  renderLintResults code []
  = if maxStringLength <? Z.of_nat (length (trim (JS.chars code))) + 1
    then Throws InvalidStringLength
    else Returns (JS.str (trim (JS.chars code) ++ [newline])).
Proof.
  intros Hcode. unfold renderLintResults.
  rewrite renderLines_no_errors.
  change (Returns ?v ≫= ?k) with (k v). cbv beta.
  unfold DocsTest.join_, DocsTest.built at 1. rewrite join_split.
  destruct (Z.ltb_spec maxStringLength (Z.of_nat (length (JS.chars code))));
    [lia|].
  change (Returns ?v ≫= ?k) with (k v). cbv beta.
  unfold DocsTest.concat_, DocsTest.built. rewrite length_app. simpl length.
  replace (Z.of_nat (length (trim (JS.chars code)) + 1))
    with (Z.of_nat (length (trim (JS.chars code))) + 1) by lia.
  by destruct (_ <? _).
Qed.

(** *** When the rendering throws *)

Lemma built_not_count l : built l ≠ Throws InvalidCountValue.
Proof. unfold DocsTest.built. by destruct (_ <? _). Qed.

Lemma repeat_count c count :
  repeat_ c count = Throws InvalidCountValue ↔ count < 0.
Proof.
  unfold DocsTest.repeat_. destruct (Z.ltb_spec count 0).
  - split; [lia | done].
  - split; [|lia]. by destruct (_ <? _).
Qed.

Lemma repeat_returns c count l :
  repeat_ c count = Returns l → 0 ≤ count ∧ count ≤ maxStringLength.
Proof.
  unfold DocsTest.repeat_. destruct (Z.ltb_spec count 0); [done|].
  destruct (Z.ltb_spec maxStringLength count); [done | lia].
Qed.

(** A step that cannot throw for its count, followed by the rest. *)
Lemma bind_count {A B} (m : completion A) (k : A → completion B) :
  m ≫= k = Throws InvalidCountValue →
  m = Throws InvalidCountValue
  ∨ ∃ value, m = Returns value ∧ k value = Throws InvalidCountValue.
Proof.
  destruct m as [value|error]; simpl.
  - intros H. right. eauto.
  - intros H. left. by inversion H.
Qed.

Lemma bind_returns {A B} (m : completion A) (k : A → completion B) result :
  m ≫= k = Returns result →
  ∃ value, m = Returns value ∧ k value = Returns result.
Proof. destruct m as [value|error]; simpl; [eauto | done]. Qed.

(** An error throws for its count only on its start line, with a column
    below one. *)
Lemma mark_count i text error :
  mark i text error = Throws InvalidCountValue →
  i = startLine error ∧ startLine error ≤ endLine_ error ∧ column error < 1.
Proof.
  unfold DocsTest.mark.
  destruct (Z.ltb_spec i (startLine error)); simpl; [done|].
  destruct (Z.ltb_spec (endLine_ error) i); simpl; [done|].
  destruct (Z.eqb_spec i (startLine error)) as [->|Hne].
  - intros H'.
    apply bind_count in H' as [H'|(squiggle & _ & H')];
      [apply repeat_count in H'; lia|].
    apply bind_count in H' as [H'|(indent & _ & H')].
    { apply repeat_count in H'. unfold startColumn in H'. lia. }
    apply bind_count in H' as [H'|(indented & _ & H')];
      [by apply built_not_count in H'|].
    apply bind_count in H' as [H'|(squiggleWithIndent & _ & H')];
      [by apply built_not_count in H'|].
    apply bind_count in H' as [H'|(errorMessageIndent & _ & H')];
      [apply repeat_count in H'; lia|].
    apply bind_count in H' as [H'|(separator & _ & H')];
      [by apply built_not_count in H'|].
    apply bind_count in H' as [H'|(lines & _ & H')];
      [by apply built_not_count in H'|].
    apply bind_count in H' as [H'|(pushed & _ & H')];
      [by apply built_not_count in H' | done].
  - intros H'.
    apply bind_count in H' as [H'|(squiggle & _ & H')];
      [apply repeat_count in H'; lia | done].
Qed.

(** An error that pushes its lines on its start line has a column, and a
    squiggle the engine can hold. *)
Lemma mark_returns i text error pushed :
  mark i text error = Returns pushed →
  i = startLine error → startLine error ≤ endLine_ error →
  fits error.
Proof.
  unfold DocsTest.mark, DocsTest.fits. intros H' -> Hle.
  destruct (Z.ltb_spec (startLine error) (startLine error)); [lia|].
  destruct (Z.ltb_spec (endLine_ error) (startLine error)); [lia|].
  simpl in H'. rewrite Z.eqb_refl in H'.
  apply bind_returns in H' as (squiggle & Hsquiggle & H').
  apply bind_returns in H' as (indent & Hindent & _).
  apply repeat_returns in Hindent. apply repeat_returns in Hsquiggle.
  unfold startColumn in *. lia.
Qed.

Lemma marks_count i text errors :
  marks i text errors = Throws InvalidCountValue →
  Exists (λ error, i = startLine error ∧ startLine error ≤ endLine_ error
                   ∧ column error < 1) errors.
Proof.
  induction errors as [|error errors IH]; simpl; [done|]. intros H'.
  apply bind_count in H' as [H'|(pushed & _ & H')].
  { apply Exists_cons_hd. by apply mark_count in H'. }
  apply bind_count in H' as [H'|(more & _ & H')]; [|done].
  apply Exists_cons_tl. by apply IH.
Qed.

Lemma marks_returns i text errors pushed :
  marks i text errors = Returns pushed →
  Forall (λ error, i = startLine error →
                   startLine error ≤ endLine_ error → fits error) errors.
Proof.
  revert pushed. induction errors as [|error errors IH]; intros pushed; simpl;
    [constructor|]. intros H'.
  apply bind_returns in H' as (first & Hfirst & H').
  apply bind_returns in H' as (more & Hmore & _).
  constructor; [by apply (mark_returns _ _ _ _ Hfirst) | by apply (IH more)].
Qed.

Lemma renderLines_count i lines errors :
  renderLines i lines errors = Throws InvalidCountValue →
  Exists (λ error, i ≤ startLine error
                   ∧ startLine error < i + Z.of_nat (length lines)
                   ∧ startLine error ≤ endLine_ error
                   ∧ column error < 1) errors.
Proof.
  revert i. induction lines as [|text lines IH]; intros i; simpl; [done|].
  intros H'.
  apply bind_count in H' as [H'|(pushed & _ & H')].
  { apply marks_count in H'. eapply Exists_impl; [exact H'|].
    simpl. intros error (-> & ? & ?). repeat split; lia. }
  apply bind_count in H' as [H'|(more & _ & H')]; [|done].
  apply IH in H'. eapply Exists_impl; [exact H'|].
  simpl. intros error (? & ? & ? & ?). repeat split; lia.
Qed.

Lemma renderLines_returns i lines errors output :
  renderLines i lines errors = Returns output →
  Forall (λ error, i ≤ startLine error →
                   startLine error < i + Z.of_nat (length lines) →
                   startLine error ≤ endLine_ error → fits error) errors.
Proof.
  revert i output.
  induction lines as [|text lines IH]; intros i output; simpl.
  { intros _. apply Forall_forall. intros; lia. }
  intros H'.
  apply bind_returns in H' as (pushed & Hpushed & H').
  apply bind_returns in H' as (more & Hmore & _).
  apply marks_returns in Hpushed. apply IH in Hmore.
  rewrite Forall_forall in *. intros error He Hlo Hhi Hle.
  destruct (decide (i = startLine error)) as [Heq|Hne].
  - by apply (Hpushed error He).
  - apply (Hmore error He); lia.
Qed.

(** X11. An error that starts on a line of the code, and does not end
    before it starts, makes the rendering throw when its column is below
    one, for the indent of its squiggle would have a negative length, and
    when its squiggle would be longer than the longest string.  Only an
    error of the first kind makes it throw for a count; errors that start
    outside the code never do, and every other throw is for the length of
    a string. *)
Theorem renderLintResults_throws_on_column_below_one
    (code : string) (errors : list LintMessage) :
  (Exists (λ error, startsInside code error
                    ∧ (column error < 1
                       ∨ maxStringLength
                         < Z.max 1 (endColumn_ error - startColumn error)))
     errors →
   ∃ error, renderLintResults code errors = Throws error)
  ∧ (renderLintResults code errors = Throws InvalidCountValue →
     Exists (λ error, startsInside code error ∧ column error < 1) errors).
Proof.
  unfold renderLintResults, startsInside. split.
  - intros Hbad.
    destruct (renderLines 0 (split newline (JS.chars code)) errors)
      as [output|error] eqn:Hlines; [|by exists error].
    apply renderLines_returns in Hlines.
    apply Exists_exists in Hbad as (error & He & (Hlo & Hhi & Hle) & Hcol).
    rewrite Forall_forall in Hlines.
    specialize (Hlines error He ltac:(lia) ltac:(lia) Hle).
    unfold DocsTest.fits in Hlines. lia.
  - intros H'.
    apply bind_count in H' as [H'|(output & _ & H')].
    + apply renderLines_count in H'. eapply Exists_impl; [exact H'|].
      simpl. intros error (? & ? & ? & ?). repeat split; lia.
    + apply bind_count in H' as [H'|(joined & _ & H')];
        [by apply built_not_count in H'|].
      apply bind_count in H' as [H'|(result & _ & H')];
        [by apply built_not_count in H' | done].
Qed.

End Facts.

Lemma renderLintResults_without_errors_witness :
  renderLintResults sampleLimit sampleCode []
  = Returns (JS.str (trim (JS.chars sampleCode) ++ [newline])).
Proof.
  rewrite (renderLintResults_without_errors sampleLimit sampleCode);
    [reflexivity | vm_compute; discriminate].
Defined.

Lemma renderLintResults_throws_on_column_below_one_witness :
  ∃ error, renderLintResults sampleLimit sampleCode [columnZero] = Throws error.
Proof.
  apply (renderLintResults_throws_on_column_below_one sampleLimit sampleCode
           [columnZero]).
  apply Exists_cons_hd. unfold startsInside. vm_compute.
  split; [repeat split; discriminate | left; reflexivity].
Defined.

(** The two throws, and a rendering that returns. *)
Example renderLintResults_samples :
  renderLintResults sampleLimit sampleCode [columnZero]
    = Throws InvalidCountValue
  ∧ renderLintResults sampleLimit sampleCode [wideError]
    = Throws InvalidStringLength
  ∧ isReturns (renderLintResults sampleLimit sampleCode sampleErrors) = true.
Proof. repeat split. Qed.

(** A code of eleven characters in an engine whose strings have at most
    eleven: the code is rendered when there is white space to trim, and
    the line feed has no room when there is none. *)
Example renderLintResults_without_room :
  renderLintResults 11 " const a;b;" []
    = Returns (JS.str (JS.chars "const a;b;" ++ [newline]))
  ∧ renderLintResults 11 "const a;b;c" [] = Throws InvalidStringLength.
Proof. split; reflexivity. Qed.

End DocsTestProps.

(* ===================================================================== *)
(** ** Properties of [insertWhenNotToUseIt] *)
(* ===================================================================== *)

Module InsertProps.
Import InsertWhenNotToUseIt.

Lemma findIndexFrom_bounds {A} (callback : A → bool) l i :
  findIndexFrom callback l i = -1
  ∨ (i ≤ findIndexFrom callback l i
     ∧ findIndexFrom callback l i < i + Z.of_nat (length l)).
Proof.
  revert i. induction l as [|x l IH]; intros i; simpl; [by left|].
  destruct (callback x); [right; lia|].
  destruct (IH (i + 1)) as [->|?]; [by left | right; lia].
Qed.

Lemma findIndexFrom_none {A} (callback : A → bool) l i :
  Forall (λ x, callback x = false) l → findIndexFrom callback l i = -1.
Proof.
  intros H. revert i. induction H as [|x l Hx _ IH]; intros i; simpl; [done|].
  by rewrite Hx.
Qed.

(** X12. For a page of a rule that requires type checking, whose
    [whenNotToUseIt] index is not negative, the function does not throw and
    makes one call, which deletes nothing and inserts at the index of the
    first heading of depth two of the whole page plus [whenNotToUseIt]: the
    search does not start after the heading, and the position at the end of
    the children, kept for a missing next heading, is never taken.  When the
    page has no heading of depth two the position is [whenNotToUseIt - 1]. *)
Theorem insertWhenNotToUseIt_position
    (nodeIsHeading : MdNode → bool) (page : RuleDocsPage) :
  requiresTypeChecking page = Some true →
  0 ≤ whenNotToUseIt page →
  ∃ call,
    insertWhenNotToUseIt nodeIsHeading page = Some (Some call)
    ∧ deleteCount call = 0
    ∧ start call
      = findIndexFrom (isDepth2Heading nodeIsHeading) (children page) 0
        + whenNotToUseIt page
    ∧ whenNotToUseIt page - 1 ≤ start call
    ∧ (Forall (λ child, isDepth2Heading nodeIsHeading child = false)
         (children page) →
       start call = whenNotToUseIt page - 1).
Proof.
  intros Hreq Hw. unfold insertWhenNotToUseIt. rewrite Hreq.
  assert (Htext : ∃ b,
    (if whenNotToUseIt page <? Z.of_nat (length (children page)) - 1
     then child ← JS.at_ (children page) (whenNotToUseIt page + 1);
          Some (negb (String.eqb (md_type child) "heading"))
     else Some false) = Some b).
  { destruct (Z.ltb_spec (whenNotToUseIt page)
                (Z.of_nat (length (children page)) - 1)); [|by eexists].
    unfold JS.at_. destruct (Z.ltb_spec (whenNotToUseIt page + 1) 0); [lia|].
    destruct (lookup_lt_is_Some_2 (children page)
                (Z.to_nat (whenNotToUseIt page + 1))) as [child ->]; [lia|].
    by eexists. }
  destruct Htext as [b ->]. simpl. unfold findIndex.
  pose proof (findIndexFrom_bounds (isDepth2Heading nodeIsHeading)
                (children page) 0) as Hb.
  eexists. split; [reflexivity|]. simpl.
  destruct (Z.eqb_spec
              (findIndexFrom (isDepth2Heading nodeIsHeading) (children page) 0
               + whenNotToUseIt page + 1) (-1)) as [Heq|Hne]; [lia|].
  repeat split; try lia.
  intros Hnone. rewrite (findIndexFrom_none _ _ 0 Hnone). lia.
Qed.

Lemma insertWhenNotToUseIt_position_witness :
  ∃ call,
    insertWhenNotToUseIt sampleIsHeading samplePage = Some (Some call)
    ∧ deleteCount call = 0
    ∧ start call = 2.
Proof.
  destruct (insertWhenNotToUseIt_position sampleIsHeading samplePage)
    as (call & Hcall & Hdel & Hstart & _); [reflexivity | simpl; lia |].
  exists call. repeat split; [exact Hcall | exact Hdel | exact Hstart].
Defined.

End InsertProps.
